(** * A shallow embedding of airgradient_monitor (src/main.rs)

    The program polls an AirGradient sensor over HTTP, computes a US EPA air
    quality index from the PM2.5 and PM10 readings and writes one point per
    cycle to InfluxDB.

    Data model:
    - [f64] is Rocq's primitive binary64 [float]; Rust's [>=] on [f64] is
      [PrimFloat.leb] with the operands swapped (false on NaN);
    - [i32], [u32], [i64] and [usize] values are [Z] or [nat];
    - Rust arrays [[f64; 7]] are lists of length 7 indexed with stdpp's [!!]
      (an index out of range is a panic, [None]);
    - [String] is [string]; the tag and field maps of an InfluxDB point
      (BTreeMap in the influxdb2 crate) are stdpp [gmap]s.

    Effects: the async methods of [Influx], [do_stuff] and the body of the
    poll loop run in a state-and-error monad [M] over [State], which holds the
    [Influx] writer, the wall clock, the log of network calls and the replies
    of the sensor and of the database. *)

From Stdlib Require Import ZArith Floats Uint63.
From stdpp Require Import base gmap strings list.

Local Set Warnings "-inexact-float".
Open Scope Z_scope.

(* ------------------------------------------------------------------ *)
(** ** Numeric casts *)

Definition u32_max : Z := 4294967295.

(** [x as u32] for [x : f64]: truncation toward zero, saturating at the
    bounds of [u32]; NaN becomes 0. *)
Definition f64_as_u32 (x : float) : Z :=
  match Prim2SF x with
  | S754_finite false m e => Z.min (Z.shiftl (Zpos m) e) u32_max
  | S754_infinity false => u32_max
  | _ => 0
  end.

(** [z as f64] for [z : i32] (exact on the whole range of [i32]). *)
Definition i32_as_f64 (z : Z) : float :=
  if z <? 0 then (- of_uint63 (Uint63.of_Z (- z)))%float
  else of_uint63 (Uint63.of_Z z).

(** [i - 1] on [usize]: an underflow panics (a debug build traps on the
    subtraction; a release build wraps to [usize::MAX] and the following
    index is out of bounds). *)
Definition usize_sub1 (i : nat) : option nat :=
  match i with O => None | S j => Some j end.

(* ------------------------------------------------------------------ *)
(** ** compute_one_aqi and compute_aqi *)

Definition AQI : list float :=
  [0.0; 50.0; 100.0; 150.0; 200.0; 300.0; 500.0]%float.

Definition PM02 : list float :=
  [0.0; 9.0; 35.4; 55.4; 125.4; 225.4; 325.4]%float.

Definition PM10 : list float :=
  [0.0; 54.0; 154.0; 254.0; 354.0; 424.0; 604.0]%float.

(** The scan [while i <= 6 && datum >= vector[i] { i = i + 1; }]. The loop
    runs at most 8 times ([i] goes from 0 to at most 7), so [fuel = 8] is
    never exhausted; the [O] branch is unreachable from [compute_one_aqi]. *)
Fixpoint scan (fuel : nat) (datum : float) (vector : list float) (i : nat)
    : option nat :=
  match fuel with
  | O => Some i
  | S fuel' =>
      if Nat.leb i 6 then
        match vector !! i with
        | None => None
        | Some v_i =>
            if (v_i <=? datum)%float then scan fuel' datum vector (S i)
            else Some i
        end
      else Some i
  end.

(** [fn compute_one_aqi(datum: f64, vector: [f64; 7]) -> u32]; [None] is a
    panic. *)
Definition compute_one_aqi (datum : float) (vector : list float) : option Z :=
  i ← scan 8 datum vector 0;
  aqi_i ← AQI !! i;
  j ← usize_sub1 i;
  aqi_j ← AQI !! j;
  v_i ← vector !! i;
  v_j ← vector !! j;
  Some (f64_as_u32
          (((aqi_i - aqi_j) / (v_i - v_j)) * (datum - v_j) + aqi_j)%float).

(** The reading the sensor sends ([struct AirGradientData]); the [f32]
    fields hold their value as a [float] ([as f64] on them is exact). *)
Record AirGradientData := {
  wifi : Z;
  serialno : string;
  rco2 : Z;
  pm01 : Z;
  pm02 : Z;
  pm10 : Z;
  pm003Count : Z;
  atmp : float;
  rhum : Z;
  atmpCompensated : float;
  rhumCompensated : Z;
  tvocIndex : Z;
  tvocRaw : Z;
  noxIndex : Z;
  noxRaw : Z;
  boot : Z;
  bootCount : Z;
  ledMode : string;
  firmware : string;
  model : string
}.

(** [fn compute_aqi(data: &AirGradientData) -> u32]. *)
Definition compute_aqi (data : AirGradientData) : option Z :=
  let v := 0 in
  a ← compute_one_aqi (i32_as_f64 (pm02 data)) PM02;
  let v := Z.max v a in
  b ← compute_one_aqi (i32_as_f64 (pm10 data)) PM10;
  let v := Z.max v b in
  Some v.

(* ------------------------------------------------------------------ *)
(** ** The InfluxDB writer *)

Record SettingsPair := { key : string; val : string }.

(** [struct InfluxSettings]: there is no field that disables writing. *)
Record InfluxSettings := {
  token : string;
  bucket : string;
  org : string;
  url : string;
  tags : list SettingsPair
}.

(** An [influxdb2::Client] handle, as [Client::new(url, org, token)] builds
    it (the constructor makes no network call). *)
Record Client := { client_url : string; client_org : string; client_token : string }.

Record Influx := { cfg : InfluxSettings; client : option Client }.

(** [Influx::new]. *)
Definition Influx_new (c : InfluxSettings) : Influx :=
  {| cfg := c; client := None |}.

(** Field values of a point: [.field(k, x as i64)] and [.field(k, x as f64)]. *)
Inductive FieldValue := FI64 (z : Z) | FF64 (f : float).

(** [influxdb2::models::DataPoint] and its builder: the tags and the fields
    are [BTreeMap]s, so a second [.tag] with the same key replaces the
    first. *)
Record DataPoint := {
  measurement : string;
  dp_tags : gmap string string;
  dp_fields : gmap string FieldValue;
  dp_timestamp : option Z
}.

Definition DataPoint_builder (m : string) : DataPoint :=
  {| measurement := m; dp_tags := ∅; dp_fields := ∅; dp_timestamp := None |}.

Definition dp_field (k : string) (v : FieldValue) (p : DataPoint) : DataPoint :=
  {| measurement := measurement p; dp_tags := dp_tags p;
     dp_fields := <[k := v]> (dp_fields p); dp_timestamp := dp_timestamp p |}.

Definition dp_tag (k v : string) (p : DataPoint) : DataPoint :=
  {| measurement := measurement p; dp_tags := <[k := v]> (dp_tags p);
     dp_fields := dp_fields p; dp_timestamp := dp_timestamp p |}.

Definition dp_with_timestamp (t : Z) (p : DataPoint) : DataPoint :=
  {| measurement := measurement p; dp_tags := dp_tags p;
     dp_fields := dp_fields p; dp_timestamp := Some t |}.

(** The errors that reach the poll loop. *)
Inductive Error :=
  | FetchError         (* reqwest: sensor unreachable or malformed JSON *)
  | PointError         (* DataPointBuilder::build: no field *)
  | WriteError.        (* Client::write: network, auth or server error *)

(** [DataPointBuilder::build]: fails when the point has no field. *)
Definition dp_build (p : DataPoint) : Error + DataPoint :=
  if Nat.eqb (size (dp_fields p)) 0 then inl PointError else inr p.

(** The calls the program makes to its collaborators: [Client::new] only
    builds a handle, [reqwest::get] and [Client::write] go over the network. *)
Inductive Event :=
  | ClientNew (u o t : string)                      (* Client::new *)
  | HttpGet (u : string)                            (* reqwest::get *)
  | DbWrite (c : Client) (b : string) (ps : list DataPoint). (* Client::write *)

(** The world the program runs in: the writer, the wall clock in
    nanoseconds since the epoch (negative before it), the calls issued so
    far, the answer the database gives to a write, the answer the sensor
    gives to a GET, and which strings the [url] crate parses as a URL (the
    check [Client::new] makes on the database url; [url_parses] is left
    open: every statement holds for every parser). *)
Record State := {
  influx : Influx;
  clock : Z;
  events : list Event;
  db_up : bool;
  sensor : option AirGradientData;
  url_parses : string -> bool
}.

Definition set_client (c : option Client) (s : State) : State :=
  {| influx := {| cfg := cfg (influx s); client := c |};
     clock := clock s; events := events s; db_up := db_up s; sensor := sensor s;
     url_parses := url_parses s |}.

Definition emit (e : Event) (s : State) : State :=
  {| influx := influx s; clock := clock s; events := events s ++ [e];
     db_up := db_up s; sensor := sensor s; url_parses := url_parses s |}.

(** Results of a step: a value, an [Err] propagated by [?], or a panic. *)
Inductive Outcome (A : Type) := Ok (a : A) | Err (e : Error) | Panic.
Arguments Ok {A} a.
Arguments Err {A} e.
Arguments Panic {A}.

Definition M (A : Type) : Type := State -> Outcome A * State.

Global Instance M_ret : MRet M := λ A a s, (Ok a, s).
Global Instance M_bind : MBind M := λ A B k m s,
  match m s with
  | (Ok a, s') => k a s'
  | (Err e, s') => (Err e, s')
  | (Panic, s') => (Panic, s')
  end.

Definition fail {A} (e : Error) : M A := λ s, (Err e, s).
Definition panic {A} : M A := λ s, (Panic, s).
Definition get : M State := λ s, (Ok s, s).

(** An [Option] that is [.unwrap()]ed, and a [Result] that is [?]ed. *)
Definition unwrap {A} (o : option A) : M A :=
  match o with Some a => mret a | None => panic end.
Definition lift_result {A} (r : Error + A) : M A :=
  match r with inl e => fail e | inr a => mret a end.

(** [Influx::connect]. [Client::new(url, org, token)] panics when [url]
    does not parse (its builder fails with "Invalid url was provided" and
    [Client::new] unwraps the result). *)
Definition connect : M unit := λ s,
  match client (influx s) with
  | Some _ => (Ok tt, s)
  | None =>
      let c := cfg (influx s) in
      let s1 := emit (ClientNew (url c) (org c) (token c)) s in
      if url_parses s (url c) then
        let cl := {| client_url := url c; client_org := org c; client_token := token c |} in
        (Ok tt, set_client (Some cl) s1)
      else (Panic, s1)
  end.

(** [Influx::disconnect]. *)
Definition disconnect : M unit := λ s, (Ok tt, set_client None s).

(** [chrono::Utc::now().timestamp_nanos_opt().unwrap()]: [Utc::now()]
    panics when the system time is before the Unix epoch ("system time
    before Unix epoch"), and the [unwrap] panics outside the range of
    [i64]. *)
Definition i64_in_range (z : Z) : bool := (- 2 ^ 63 <=? z) && (z <? 2 ^ 63).

Definition now_nanos : M Z := λ s,
  if clock s <? 0 then (Panic, s)
  else if i64_in_range (clock s) then (Ok (clock s), s) else (Panic, s).

(** [client.write(bucket, stream::iter(points))]: one network call. *)
Definition client_write (cl : Client) (b : string) (ps : list DataPoint) : M unit := λ s,
  let s' := emit (DbWrite cl b ps) s in
  if db_up s then (Ok tt, s') else (Err WriteError, s').

(** The point [write_point] builds, before [.build()]. *)
Definition make_point (c : InfluxSettings) (data : AirGradientData) (aqi : Z)
    (timestamp : Z) : DataPoint :=
  foldl (λ p tag, dp_tag (key tag) (val tag) p)
    (dp_with_timestamp timestamp
     (dp_tag "serialno" (serialno data)
     (dp_tag "model" (model data)
     (dp_tag "firmware" (firmware data)
     (dp_field "aqi" (FI64 aqi)
     (dp_field "noxIndex" (FI64 (noxIndex data))
     (dp_field "nox" (FI64 (noxRaw data))
     (dp_field "tvocIndex" (FI64 (tvocIndex data))
     (dp_field "tvoc" (FI64 (tvocRaw data))
     (dp_field "humidity" (FI64 (rhumCompensated data))
     (dp_field "temp" (FF64 (atmpCompensated data))
     (dp_field "pm003Count" (FI64 (pm003Count data))
     (dp_field "pm10" (FI64 (pm10 data))
     (dp_field "pm02" (FI64 (pm02 data))
     (dp_field "pm01" (FI64 (pm01 data))
     (dp_field "rco2" (FI64 (rco2 data))
     (DataPoint_builder "airgradient")))))))))))))))))
    (tags c).

(** [Influx::write_point]. *)
Definition write_point (data : AirGradientData) (aqi : Z) : M unit :=
  connect ;;
  s ← get;
  cl ← unwrap (client (influx s));
  timestamp ← now_nanos;
  let c := cfg (influx s) in
  point ← lift_result (dp_build (make_point c data aqi timestamp));
  client_write cl (bucket c) [point].

(** [reqwest::get(url).await?.json::<AirGradientData>().await?]. *)
Definition fetch_reading (request_url : string) : M AirGradientData := λ s,
  let s' := emit (HttpGet request_url) s in
  match sensor s with
  | Some d => (Ok d, s')
  | None => (Err FetchError, s')
  end.

(** [do_stuff]. *)
Definition do_stuff (request_url : string) : M unit :=
  data ← fetch_reading request_url;
  aqi ← unwrap (compute_aqi data);
  write_point data aqi.

(** One pass of the [loop] in [main], up to [interval.tick()]: an error is
    printed and the writer disconnected; a panic ends the process. *)
Definition loop_body (request_url : string) : M unit := λ s,
  match do_stuff request_url s with
  | (Ok _, s') => (Ok tt, s')
  | (Err _, s') => disconnect s'
  | (Panic, s') => (Panic, s')
  end.

(* ------------------------------------------------------------------ *)
(** ** Pacing of the poll loop

    [main] creates [tokio::time::interval(Duration::from_secs(delaysecs))]
    once and calls [interval.tick().await] at the end of every pass. Time is
    an integer (any unit). [tokio::time::interval(period)] starts at the
    instant it is created, so its first tick completes at once; [tick]
    completes at its deadline, or at once when the deadline has passed, and
    with the default [MissedTickBehavior::Burst] the next deadline is always
    the previous deadline plus the period. *)

Record Interval := { deadline : Z; period : Z }.

Definition interval (now p : Z) : Interval := {| deadline := now; period := p |}.

(** [interval.tick().await] called at [now]: the instant it completes and
    the interval afterwards. *)
Definition tick (iv : Interval) (now : Z) : Z * Interval :=
  (Z.max now (deadline iv),
   {| deadline := deadline iv + period iv; period := period iv |}).

(** The instants at which the passes of the loop start, when the [k]-th pass
    takes [ds !! k] time units before it reaches [interval.tick()]. *)
Fixpoint cycle_starts (iv : Interval) (t : Z) (ds : list Z) : list Z :=
  match ds with
  | [] => []
  | d :: ds' =>
      let '(t', iv') := tick iv (t + d) in
      t :: cycle_starts iv' t' ds'
  end.

(** The loop of [main], entered at [t0] right after the interval is
    created. *)
Definition poll_schedule (t0 delay : Z) (ds : list Z) : list Z :=
  cycle_starts (interval t0 delay) t0 ds.

(* ------------------------------------------------------------------ *)
(** ** main *)

(** [struct AirGradientSettings]; its field [url] is [ag_url] here (record
    fields are global names and [url] is the field of [InfluxSettings]).
    [delaysecs] is a [u64]. *)
Record AirGradientSettings := { ag_url : string; delaysecs : Z }.

(** [struct Settings]. *)
Record Settings := { airgradient : AirGradientSettings; influxdb : InfluxSettings }.

(** The configuration path: [args[1]], or the default path when there are
    fewer than two arguments. *)
Definition cfgpath (args : list string) : string :=
  match args with
  | _ :: a1 :: _ => a1
  | _ => "/etc/airgradient_monitor.toml"
  end.

(** [settings.airgradient.url + "/measures/current"]. *)
Definition request_url (st : Settings) : string :=
  String.append (ag_url (airgradient st)) "/measures/current".

Definition set_influx (i : Influx) (s : State) : State :=
  {| influx := i; clock := clock s; events := events s; db_up := db_up s;
     sensor := sensor s; url_parses := url_parses s |}.

(** What the world answers in one pass of the loop: the wall clock when
    [write_point] reads it, whether the database accepts a write, and the
    reply of the sensor. *)
Record PassEnv := { env_clock : Z; env_db_up : bool; env_sensor : option AirGradientData }.

Definition set_env (e : PassEnv) (s : State) : State :=
  {| influx := influx s; clock := env_clock e; events := events s;
     db_up := env_db_up e; sensor := env_sensor e; url_parses := url_parses s |}.

(** The [loop] of [main], one pass per element of [envs]. [interval.tick()]
    only waits (its timing is [poll_schedule]); a panic ends the process.
    [main] never returns from the loop: [Ok tt] here means that the loop is
    still running after these passes. *)
Fixpoint main_loop (request_url : string) (envs : list PassEnv) (s : State)
    : Outcome unit * State :=
  match envs with
  | [] => (Ok tt, s)
  | e :: envs' =>
      match loop_body request_url (set_env e s) with
      | (Panic, s') => (Panic, s')
      | (_, s') => main_loop request_url envs' s'
      end
  end.

(** [main], given the command-line arguments and the reading of the
    configuration file ([config::Config::builder() ... .build()?] and
    [try_deserialize()?]; [None] is an error). The result [None] is the
    error [main] returns when the configuration cannot be read, before any
    other call. [tokio::time::interval] panics on a zero period. *)
Definition main_run (args : list string) (read_config : string -> option Settings)
    (envs : list PassEnv) (s : State) : option (Outcome unit * State) :=
  settings ← read_config (cfgpath args);
  let s0 := set_influx (Influx_new (influxdb settings)) s in
  match connect s0 with
  | (Ok _, s1) =>
      let request_url := request_url settings in
      if Z.eqb (delaysecs (airgradient settings)) 0 then Some (Panic, s1)
      else Some (main_loop request_url envs s1)
  | (Err e, s1) => Some (Err e, s1)
  | (Panic, s1) => Some (Panic, s1)
  end.

(* ------------------------------------------------------------------ *)
(** ** Auxiliary definitions for the statements *)

(** A reading with the given PM2.5 and PM10 concentrations and fixed values
    elsewhere. *)
Definition reading_pm (p2 p10 : Z) : AirGradientData :=
  {| wifi := -60; serialno := "84fce602549c"; rco2 := 450; pm01 := 0;
     pm02 := p2; pm10 := p10; pm003Count := 100; atmp := 21.5%float;
     rhum := 40; atmpCompensated := 21.0%float; rhumCompensated := 42;
     tvocIndex := 100; tvocRaw := 30000; noxIndex := 1; noxRaw := 17000;
     boot := 1; bootCount := 1; ledMode := "pm"; firmware := "3.1.1";
     model := "I-9PSL" |}.




(** A configuration and a world to run the writer in. *)
Definition sample_settings (ts : list SettingsPair) : InfluxSettings :=
  {| token := "s3cr3t"; bucket := "air"; org := "home";
     url := "http://influx.local:8086"; tags := ts |}.

(** A stand-in for [Url::parse] on the sample urls: it accepts the urls
    with an [http] or [https] scheme. *)
Definition sample_url_parses (u : string) : bool :=
  String.prefix "http://" u || String.prefix "https://" u.

Definition sample_state (c : InfluxSettings) (db : bool)
    (r : option AirGradientData) : State :=
  {| influx := Influx_new c; clock := 1700000000000000000; events := [];
     db_up := db; sensor := r; url_parses := sample_url_parses |}.

(** [connect] succeeds: the writer holds a client, or the configured url
    parses. *)
Definition connects (s : State) : bool :=
  match client (influx s) with
  | Some _ => true
  | None => url_parses s (url (cfg (influx s)))
  end.

(** [Utc::now().timestamp_nanos_opt().unwrap()] succeeds on the clock [z]:
    [z] is not before the epoch and within the range of [i64]. *)
Definition timestamp_ok (z : Z) : bool := (0 <=? z) && i64_in_range z.

(** The client handle [Client::new(url, org, token)] builds from a
    configuration. *)
Definition config_client (c : InfluxSettings) : Client :=
  {| client_url := url c; client_org := org c; client_token := token c |}.

(** A pass of the loop (with a database url that parses) panics: the
    sensor's reading makes [compute_aqi] panic, or it is accepted and the
    clock is before the epoch or outside the range of [i64]. *)
Definition pass_panics (e : PassEnv) : bool :=
  match env_sensor e with
  | Some d =>
      match compute_aqi d with
      | None => true
      | Some _ => negb (timestamp_ok (env_clock e))
      end
  | None => false
  end.

(** A call that goes to the configured endpoints: the sensor request to
    [u], the client built from the configuration, and writes of one point
    to the configured bucket with that client. *)
Definition event_targets (c : InfluxSettings) (u : string) (ev : Event) : Prop :=
  match ev with
  | HttpGet u' => u' = u
  | ClientNew u' o t => u' = url c /\ o = org c /\ t = token c
  | DbWrite cl b ps => cl = config_client c /\ b = bucket c /\ length ps = 1%nat
  end.

(** A configuration with the given delay, in a file at
    [/home/pi/airgradient.toml]; every other path fails to read. *)
Definition sample_config (delay : Z) : Settings :=
  {| airgradient := {| ag_url := "http://192.168.1.50"; delaysecs := delay |};
     influxdb := sample_settings [] |}.

Definition sample_read_config (delay : Z) (path : string) : option Settings :=
  if String.eqb path "/home/pi/airgradient.toml" then Some (sample_config delay) else None.

(** A configuration whose database url does not parse, in the same file. *)
Definition bad_url_config : Settings :=
  {| airgradient := {| ag_url := "http://192.168.1.50"; delaysecs := 60 |};
     influxdb := {| token := "s3cr3t"; bucket := "air"; org := "home";
                    url := "not a url"; tags := [] |} |}.

Definition bad_url_read_config (path : string) : option Settings :=
  if String.eqb path "/home/pi/airgradient.toml" then Some bad_url_config else None.

Definition sample_args : list string :=
  ["airgradient_monitor"; "/home/pi/airgradient.toml"].

(** A world whose clock is [2 ^ 63] ns after the epoch (in 2262). *)
Definition late_state : State :=
  {| influx := Influx_new (sample_settings []); clock := 2 ^ 63; events := [];
     db_up := true; sensor := None; url_parses := sample_url_parses |}.

Definition sample_env (r : option AirGradientData) (db : bool) : PassEnv :=
  {| env_clock := 1700000060000000000; env_db_up := db; env_sensor := r |}.

(* ------------------------------------------------------------------ *)
(** ** Binary64 values as scaled integers

    For the analysis of the arithmetic of [compute_one_aqi], a finite
    non-negative [float] [m * 2 ^ e] is read as the integer
    [m * 2 ^ (e + SC)]: every binary64 number, subnormals included, and every
    product of two of them is an integer multiple of [2 ^ (- SC)].
    [RG X] is [X] rounded to the nearest binary64 number, ties to even, on
    that scale ([grid X] is the exponent of its last mantissa bit). *)
Definition SC : Z := 2200.

(** [X / 2 ^ k] rounded to the nearest integer, ties to even. *)
Definition rne_div (X k : Z) : Z :=
  let q := X / 2 ^ k in
  let r := X mod 2 ^ k in
  match Z.compare (2 * r) (2 ^ k) with
  | Lt => q
  | Eq => if Z.even q then q else q + 1
  | Gt => q + 1
  end.

Definition grid (X : Z) : Z := Z.max (Z.log2 X + 1 - 53) (SC - 1074).

Definition RG (X : Z) : Z := rne_div X (grid X) * 2 ^ grid X.

Definition zval (f : spec_float) : Z :=
  match f with
  | S754_finite false m e => Zpos m * 2 ^ (e + SC)
  | S754_finite true m e => - (Zpos m * 2 ^ (e + SC))
  | _ => 0
  end.

Definition nonneg_sf (f : spec_float) : Prop :=
  match f with
  | S754_zero _ => True
  | S754_finite false _ e => -1074 <= e
  | _ => False
  end.

(** The shapes of [nonneg_sf], as a test. *)
Definition nonneg_sfb (f : spec_float) : bool :=
  match f with
  | S754_zero _ => true
  | S754_finite false _ e => -1074 <=? e
  | _ => false
  end.

(** The scaled value of a [float]. *)
Definition zv (x : float) : Z := zval (Prim2SF x).

(** The slope of bracket [j] of a table:
    [(AQI[j] - AQI[j-1]) / (vector[j] - vector[j-1])]. *)
Definition slope (v : list float) (j : nat) : float :=
  ((nth j AQI 0 - nth (j - 1) AQI 0) / (nth j v 0 - nth (j - 1) v 0))%float.

(** [(k * (X - w) + a) as u32] with each operation rounded as in binary64,
    on scaled values. *)
Definition Gz (k w a X : Z) : Z :=
  Z.min (RG (RG (k * RG (X - w) / 2 ^ SC) + a) / 2 ^ SC) u32_max.

(** The value [compute_one_aqi] converts to [u32] in bracket [j] of table
    [v], at concentration [c]. *)
Definition bracket_value (v : list float) (j : nat) (c : float) : float :=
  (slope v j * (c - nth (j - 1) v 0) + nth (j - 1) AQI 0)%float.

(** Facts about a threshold table that the monotonicity argument uses: seven
    non-negative thresholds, the first one zero, non-negative slopes and
    AQI values of moderate size, and, across brackets, the value at the top
    of a lower bracket not above the value at the bottom of a higher one. *)
Definition table_checks (v : list float) : bool :=
  Nat.eqb (length v) 7 && (zv (nth 0 v 0%float) =? 0) &&
  forallb (λ x, nonneg_sfb (Prim2SF x) && (zv x <? 2 ^ (SC + 100))) v &&
  forallb (λ j, nonneg_sfb (Prim2SF (slope v j)) && (zv (slope v j) <? 2 ^ (SC + 100)) &&
                nonneg_sfb (Prim2SF (nth (j - 1) AQI 0%float)) &&
                (zv (nth (j - 1) AQI 0%float) <? 2 ^ (SC + 100)))
    [1; 2; 3; 4; 5; 6]%nat &&
  forallb (λ i, forallb (λ i',
      f64_as_u32 (bracket_value v i (nth i v 0%float)) <=?
      f64_as_u32 (bracket_value v i' (nth (i' - 1) v 0%float)))
      (seq (S i) (6 - i))) [1; 2; 3; 4; 5; 6]%nat.

(* ------------------------------------------------------------------ *)
(** * Properties *)

(* ------------------------------------------------------------------ *)
(** ** Rounding of binary64 operations on non-negative operands *)

Lemma shr_1_spec (m : Z) (r s : bool) : 0 <= m ->
  shr_1 {| shr_m := m; shr_r := r; shr_s := s |} =
  {| shr_m := m / 2; shr_r := Z.odd m; shr_s := r || s |}.
Proof.
  intros Hm. destruct m as [|[p|p|]|p]; try lia; simpl; try reflexivity.
  - change (Zpos p~1) with (2 * Zpos p + 1).
    replace ((2 * Zpos p + 1) / 2) with (Zpos p); [reflexivity|].
    apply Z.div_unique with 1; lia.
  - change (Zpos p~0) with (2 * Zpos p).
    replace (2 * Zpos p / 2) with (Zpos p); [reflexivity|].
    apply Z.div_unique with 0; lia.
Qed.

Lemma Zmod_mul_r (a b c : Z) : 0 < b -> 0 < c ->
  a mod (b * c) = a mod b + b * ((a / b) mod c).
Proof.
  intros Hb Hc. symmetry. apply Z.mod_unique with ((a / b) / c).
  - left. pose proof (Z.mod_pos_bound a b Hb). pose proof (Z.mod_pos_bound (a / b) c Hc).
    split; [nia|]. assert ((a / b) mod c <= c - 1) by lia. nia.
  - rewrite (Z.div_mod a b) at 1 by lia. rewrite (Z.div_mod (a / b) c) at 1 by lia. ring.
Qed.

Lemma iter_pos_nat {A} (f : A -> A) (p : positive) (x : A) :
  SpecFloat.iter_pos f p x = Nat.iter (Pos.to_nat p) f x.
Proof.
  revert x. induction p as [p IH|p IH|]; intros x.
  - change (SpecFloat.iter_pos f p~1 x) with (SpecFloat.iter_pos f p (SpecFloat.iter_pos f p (f x))).
    rewrite !IH, Pos2Nat.inj_xI, Nat.iter_succ_r.
    replace (2 * Pos.to_nat p)%nat with (Pos.to_nat p + Pos.to_nat p)%nat by lia.
    rewrite Nat.iter_add. reflexivity.
  - change (SpecFloat.iter_pos f p~0 x) with (SpecFloat.iter_pos f p (SpecFloat.iter_pos f p x)).
    rewrite !IH, Pos2Nat.inj_xO.
    replace (2 * Pos.to_nat p)%nat with (Pos.to_nat p + Pos.to_nat p)%nat by lia.
    rewrite Nat.iter_add. reflexivity.
  - reflexivity.
Qed.

(** After [n >= 1] shifts of a non-negative [m] with no pending bits: the
    quotient, the first lost bit and whether a later lost bit is set. *)
Lemma shr_1_iter (m : Z) (n : nat) : 0 <= m -> (1 <= n)%nat ->
  Nat.iter n shr_1 {| shr_m := m; shr_r := false; shr_s := false |} =
  {| shr_m := m / 2 ^ Z.of_nat n;
     shr_r := Z.odd (m / 2 ^ (Z.of_nat n - 1));
     shr_s := negb (m mod 2 ^ (Z.of_nat n - 1) =? 0) |}.
Proof.
  intros Hm Hn. induction n as [|n IH]; [lia|].
  destruct n as [|n].
  - cbn [Nat.iter]. rewrite shr_1_spec by lia.
    change (Z.of_nat 1 - 1) with 0. change (Z.of_nat 1) with 1.
    rewrite Z.pow_0_r, Z.pow_1_r, Z.div_1_r, Z.mod_1_r. reflexivity.
  - rewrite Nat.iter_succ, IH by lia.
    assert (Hp : 0 < 2 ^ Z.of_nat (S n)) by (apply Z.pow_pos_nonneg; lia).
    rewrite shr_1_spec by (apply Z.div_pos; lia).
    replace (Z.of_nat (S (S n)) - 1) with (Z.of_nat (S n)) by lia.
    f_equal.
    + rewrite Z.div_div by lia. f_equal.
      replace (Z.of_nat (S (S n))) with (Z.succ (Z.of_nat (S n))) by lia.
      rewrite Z.pow_succ_r by lia. lia.
    + set (k := Z.of_nat (S n) - 1).
      assert (Hk : 0 <= k) by lia.
      replace (Z.of_nat (S n)) with (k + 1) by lia.
      rewrite Z.pow_add_r, Z.pow_1_r by lia.
      rewrite Zmod_mul_r by (try apply Z.pow_pos_nonneg; lia).
      assert (H0 : 0 <= m mod 2 ^ k) by (apply Z.mod_pos_bound, Z.pow_pos_nonneg; lia).
      assert (Hpk : 0 < 2 ^ k) by (apply Z.pow_pos_nonneg; lia).
      rewrite Zodd_mod.
      assert (H1 : (m / 2 ^ k) mod 2 = 0 \/ (m / 2 ^ k) mod 2 = 1).
      { pose proof (Z.mod_pos_bound (m / 2 ^ k) 2 ltac:(lia)). lia. }
      destruct H1 as [-> | ->]; simpl;
      destruct (Z.eqb_spec (m mod 2 ^ k) 0) as [E'|E'];
      destruct (Z.eqb_spec (m mod 2 ^ k + 2 ^ k * 0) 0) as [E''|E''];
      destruct (Z.eqb_spec (m mod 2 ^ k + 2 ^ k * 1) 0) as [E3|E3];
      simpl; try reflexivity; lia.
Qed.

Lemma shr_round (m : Z) (n : nat) : 0 <= m -> (1 <= n)%nat ->
  let r := Nat.iter n shr_1 {| shr_m := m; shr_r := false; shr_s := false |} in
  shr_m r = m / 2 ^ Z.of_nat n /\
  round_nearest_even (shr_m r) (loc_of_shr_record r) = rne_div m (Z.of_nat n).
Proof.
  intros Hm Hn r. unfold r. rewrite shr_1_iter by assumption. simpl.
  split; [reflexivity|].
  set (k := Z.of_nat n - 1).
  assert (Hk : 0 <= k) by lia.
  replace (Z.of_nat n) with (k + 1) by lia.
  unfold rne_div.
  rewrite Z.pow_add_r, Z.pow_1_r by lia.
  assert (Hpk : 0 < 2 ^ k) by (apply Z.pow_pos_nonneg; lia).
  rewrite Zmod_mul_r by lia.
  pose proof (Z.mod_pos_bound m (2 ^ k) Hpk) as Hlow.
  rewrite Zodd_mod.
  assert (H1 : (m / 2 ^ k) mod 2 = 0 \/ (m / 2 ^ k) mod 2 = 1).
  { pose proof (Z.mod_pos_bound (m / 2 ^ k) 2 ltac:(lia)). lia. }
  set (q := m / (2 ^ k * 2)).
  destruct H1 as [Hb | Hb]; rewrite Hb;
  destruct (Z.eqb_spec (m mod 2 ^ k) 0) as [E'|E'].
  - assert (Hc : (2 * (m mod 2 ^ k + 2 ^ k * 0) ?= 2 ^ k * 2) = Lt)
      by (apply Z.compare_lt_iff; lia). rewrite Hc. reflexivity.
  - assert (Hc : (2 * (m mod 2 ^ k + 2 ^ k * 0) ?= 2 ^ k * 2) = Lt)
      by (apply Z.compare_lt_iff; lia). rewrite Hc. reflexivity.
  - assert (Hc : (2 * (m mod 2 ^ k + 2 ^ k * 1) ?= 2 ^ k * 2) = Eq)
      by (apply Z.compare_eq_iff; lia). rewrite Hc. reflexivity.
  - assert (Hc : (2 * (m mod 2 ^ k + 2 ^ k * 1) ?= 2 ^ k * 2) = Gt)
      by (apply Z.compare_gt_iff; lia). rewrite Hc. reflexivity.
Qed.

Lemma rne_div_scale (m k j : Z) : 0 <= k -> 0 <= j ->
  rne_div (m * 2 ^ j) (k + j) = rne_div m k.
Proof.
  intros Hk Hj. unfold rne_div.
  assert (Hpk : 0 < 2 ^ k) by (apply Z.pow_pos_nonneg; lia).
  assert (Hpj : 0 < 2 ^ j) by (apply Z.pow_pos_nonneg; lia).
  rewrite Z.pow_add_r by lia.
  rewrite Z.div_mul_cancel_r, Z.mul_mod_distr_r by lia.
  replace (2 * (m mod 2 ^ k * 2 ^ j)) with ((2 * (m mod 2 ^ k)) * 2 ^ j) by ring.
  assert (Hc : (2 * (m mod 2 ^ k) * 2 ^ j ?= 2 ^ k * 2 ^ j) = (2 * (m mod 2 ^ k) ?= 2 ^ k)).
  { destruct (Z.compare_spec (2 * (m mod 2 ^ k)) (2 ^ k));
    [apply Z.compare_eq_iff | apply Z.compare_lt_iff | apply Z.compare_gt_iff]; nia. }
  rewrite Hc. reflexivity.
Qed.

Lemma rne_div_exact (Y k : Z) : 0 <= k -> rne_div (Y * 2 ^ k) k = Y.
Proof.
  intros Hk. unfold rne_div.
  assert (Hpk : 0 < 2 ^ k) by (apply Z.pow_pos_nonneg; lia).
  rewrite Z.div_mul, Z.mod_mul by lia. simpl.
  destruct (2 ^ k) eqn:E; [lia| |lia]. reflexivity.
Qed.

Lemma digits2_pos_size (p : positive) : digits2_pos p = Pos.size p.
Proof. induction p; simpl; rewrite ?IHp; reflexivity. Qed.

Lemma pos_size_bounds (p : positive) :
  2 ^ (Zpos (Pos.size p) - 1) <= Zpos p < 2 ^ Zpos (Pos.size p).
Proof.
  pose proof (Pos.size_le p) as H1. pose proof (Pos.size_gt p) as H2.
  apply Pos2Z.pos_le_pos in H1. apply Pos2Z.pos_lt_pos in H2.
  rewrite Pos2Z.inj_pow in H1, H2. rewrite Pos2Z.inj_xO in H1.
  change (Zpos 2) with 2 in H1, H2. change (2 * 1) with 2 in H1.
  split; [|exact H2].
  assert (E : 2 ^ Zpos (Pos.size p) = 2 * 2 ^ (Zpos (Pos.size p) - 1)).
  { rewrite <- Z.pow_succ_r by lia. f_equal. lia. }
  lia.
Qed.

Lemma log2_pos_size (p : positive) : Z.log2 (Zpos p) = Zpos (Pos.size p) - 1.
Proof.
  apply Z.log2_unique; [lia|]. pose proof (pos_size_bounds p).
  replace (Z.succ (Zpos (Pos.size p) - 1)) with (Zpos (Pos.size p)) by lia. lia.
Qed.

Lemma fexp_eq (x : Z) : fexp 53 1024 x = Z.max (x - 53) (-1074).
Proof. reflexivity. Qed.

Lemma shr_fexp_spec (M e : Z) :
  shr_fexp 53 1024 M e loc_Exact =
  let s := fexp 53 1024 (Zdigits2 M + e) - e in
  if 0 <? s then (Nat.iter (Z.to_nat s) shr_1 {| shr_m := M; shr_r := false; shr_s := false |}, e + s)
  else ({| shr_m := M; shr_r := false; shr_s := false |}, e).
Proof.
  unfold shr_fexp, shr. simpl shr_record_of_loc. cbv zeta.
  destruct (fexp 53 1024 (Zdigits2 M + e) - e) eqn:E; simpl; try reflexivity.
  rewrite iter_pos_nat. reflexivity.
Qed.

Lemma rne_div_nonneg (X k : Z) : 0 <= X -> 0 <= k -> 0 <= rne_div X k.
Proof.
  intros HX Hk. unfold rne_div.
  assert (0 <= X / 2 ^ k) by (apply Z.div_pos; [lia | apply Z.pow_pos_nonneg; lia]).
  destruct (_ ?= _); [destruct (Z.even _)|..]; lia.
Qed.

Lemma rne_div_le (X k j : Z) : 0 <= k -> 0 <= j -> 0 <= X < 2 ^ (k + j) ->
  rne_div X k <= 2 ^ j.
Proof.
  intros Hk Hj HX. unfold rne_div.
  assert (Hpk : 0 < 2 ^ k) by (apply Z.pow_pos_nonneg; lia).
  rewrite Z.pow_add_r in HX by lia.
  assert (X / 2 ^ k < 2 ^ j) by (apply Z.div_lt_upper_bound; lia).
  destruct (_ ?= _); [destruct (Z.even _)|..]; lia.
Qed.

Lemma log2_mul_pow2' (a b : Z) : 0 < a -> 0 <= b -> Z.log2 (a * 2 ^ b) = Z.log2 a + b.
Proof. intros. rewrite Z.add_comm. apply Z.log2_mul_pow2; lia. Qed.

Lemma round_aux_spec (m : positive) (e : Z) :
  -SC <= e -> e <= 971 -> Zpos m * 2 ^ (e + SC) < 2 ^ (SC + 1000) ->
  nonneg_sf (binary_round_aux 53 1024 false (Zpos m) e loc_Exact) /\
  zval (binary_round_aux 53 1024 false (Zpos m) e loc_Exact) = RG (Zpos m * 2 ^ (e + SC)).
Proof.
  intros He1 He2 HX.
  pose proof (pos_size_bounds m) as Hm.
  set (d := Zpos (Pos.size m)) in *.
  assert (Hd : 1 <= d) by (unfold d; lia).
  assert (HSC : SC = 2200) by reflexivity.
  assert (Hde : d + e <= 1000).
  { assert (2 ^ (d - 1 + (e + SC)) < 2 ^ (SC + 1000)).
    { rewrite Z.pow_add_r by lia.
      eapply Z.le_lt_trans; [|exact HX]. apply Z.mul_le_mono_nonneg_r; [|lia].
      apply Z.pow_nonneg; lia. }
    apply Z.pow_lt_mono_r_iff in H; lia. }
  set (E := Z.max (d + e - 53) (-1074)).
  assert (Hgrid : grid (Zpos m * 2 ^ (e + SC)) = E + SC).
  { unfold grid. rewrite log2_mul_pow2', log2_pos_size by lia. fold d. unfold E. lia. }
  unfold RG. rewrite Hgrid.
  unfold binary_round_aux.
  rewrite shr_fexp_spec. cbv zeta.
  change (Zdigits2 (Zpos m)) with (Zpos (digits2_pos m)).
  rewrite digits2_pos_size. fold d. rewrite fexp_eq. fold E.
  destruct (Z.ltb_spec 0 (E - e)) as [Hs|Hs].
  - pose proof (shr_round (Zpos m) (Z.to_nat (E - e)) ltac:(lia) ltac:(lia)) as [_ Hr].
    rewrite Z2Nat.id in Hr by lia.
    cbv beta iota. rewrite Hr. replace (e + (E - e)) with E by lia.
    assert (Hscale : rne_div (Zpos m * 2 ^ (e + SC)) (E + SC) = rne_div (Zpos m) (E - e)).
    { replace (E + SC) with ((E - e) + (e + SC)) by lia. apply rne_div_scale; lia. }
    rewrite Hscale.
    assert (Hm1 : 0 <= rne_div (Zpos m) (E - e)) by (apply rne_div_nonneg; lia).
    assert (Hm1b : rne_div (Zpos m) (E - e) <= 2 ^ Z.max (d - (E - e)) 0).
    { apply rne_div_le; try lia. split; [lia|].
      eapply Z.lt_le_trans; [apply Hm|]. apply Z.pow_le_mono_r; lia. }
    set (m1 := rne_div (Zpos m) (E - e)) in *.
    rewrite shr_fexp_spec. cbv zeta.
    destruct m1 as [|p|p] eqn:Em1; [| |lia].
    + simpl Zdigits2. rewrite fexp_eq.
      destruct (Z.ltb_spec 0 (Z.max (0 + E - 53) (-1074) - E)); [lia|].
      simpl. split; [exact I|reflexivity].
    + change (Zdigits2 (Zpos p)) with (Zpos (digits2_pos p)).
      rewrite digits2_pos_size, fexp_eq.
      pose proof (pos_size_bounds p) as Hp.
      set (d1 := Zpos (Pos.size p)) in *.
      destruct (Z.ltb_spec 0 (Z.max (d1 + E - 53) (-1074) - E)) as [Hs2|Hs2].
      * assert (HE : -1074 <= E) by (unfold E; lia).
        assert (Hd1 : 54 <= d1) by lia.
        assert (Hj : d1 - 1 <= Z.max (d - (E - e)) 0).
        { apply (Z.pow_le_mono_r_iff 2); try lia. }
        assert (Hj53 : d - (E - e) = 53) by (unfold E in *; lia).
        assert (Hd1' : d1 = 54) by lia.
        rewrite Hj53 in Hm1b. rewrite Hd1' in Hp.
        assert (Ep : Zpos p = 2 ^ 53).
        { rewrite Z.max_l in Hm1b by lia. replace (54 - 1) with 53 in Hp by lia. lia. }
        replace (Z.max (d1 + E - 53) (-1074) - E) with 1 by lia.
        change (Nat.iter (Z.to_nat 1) shr_1 {| shr_m := Zpos p; shr_r := false; shr_s := false |})
          with (shr_1 {| shr_m := Zpos p; shr_r := false; shr_s := false |}).
        rewrite shr_1_spec by lia. simpl shr_m. rewrite Ep.
        change (2 ^ 53 / 2) with (Zpos 4503599627370496).
        destruct (Z.leb_spec (E + 1) (1024 - 53)) as [_|]; [|unfold E in *; lia].
        split; [simpl; lia|].
        change (zval (S754_finite false 4503599627370496 (E + 1)))
          with (Zpos 4503599627370496 * 2 ^ (E + 1 + SC)).
        replace (E + 1 + SC) with (1 + (E + SC)) by lia.
        rewrite Z.pow_add_r by lia. lia.
      * simpl shr_m. destruct (Z.leb_spec E (1024 - 53)) as [_|]; [|unfold E in *; lia].
        split; [simpl; unfold E; lia|]. reflexivity.
  - change (round_nearest_even (shr_m {| shr_m := Zpos m; shr_r := false; shr_s := false |})
      (loc_of_shr_record {| shr_m := Zpos m; shr_r := false; shr_s := false |})) with (Zpos m).
    rewrite shr_fexp_spec. cbv zeta.
    change (Zdigits2 (Zpos m)) with (Zpos (digits2_pos m)).
    rewrite digits2_pos_size. fold d. rewrite fexp_eq. fold E.
    destruct (Z.ltb_spec 0 (E - e)) as [Hs'|Hs']; [lia|].
    simpl shr_m. destruct (Z.leb_spec e (1024 - 53)) as [_|]; [|lia].
    split; [simpl; unfold E in Hs; lia|].
    change (zval (S754_finite false m e)) with (Zpos m * 2 ^ (e + SC)).
    replace (Zpos m * 2 ^ (e + SC)) with ((Zpos m * 2 ^ (e - E)) * 2 ^ (E + SC)).
    + rewrite rne_div_exact by lia. reflexivity.
    + rewrite <- Z.mul_assoc, <- Z.pow_add_r by lia. f_equal. f_equal. lia.
Qed.

Lemma iter_xO (m k : positive) : Zpos (Pos.iter xO m k) = Zpos m * 2 ^ Zpos k.
Proof.
  induction k using Pos.peano_ind.
  - simpl. lia.
  - rewrite Pos.iter_succ, Pos2Z.inj_succ, Z.pow_succ_r by lia.
    change (Zpos (Pos.iter xO m k)~0) with (2 * Zpos (Pos.iter xO m k)).
    rewrite IHk. ring.
Qed.

Lemma round_spec (m : positive) (e : Z) :
  -SC <= e -> Zpos m * 2 ^ (e + SC) < 2 ^ (SC + 1000) ->
  nonneg_sf (binary_round 53 1024 false m e) /\
  zval (binary_round 53 1024 false m e) = RG (Zpos m * 2 ^ (e + SC)).
Proof.
  intros He HX. unfold binary_round, shl_align.
  rewrite digits2_pos_size, fexp_eq.
  pose proof (pos_size_bounds m) as Hm.
  assert (HSC : SC = 2200) by reflexivity.
  assert (Hde : Zpos (Pos.size m) + e <= 1000).
  { assert (2 ^ (Zpos (Pos.size m) - 1 + (e + SC)) < 2 ^ (SC + 1000)).
    { rewrite Z.pow_add_r by lia.
      eapply Z.le_lt_trans; [|exact HX]. apply Z.mul_le_mono_nonneg_r; [|lia].
      apply Z.pow_nonneg; lia. }
    apply Z.pow_lt_mono_r_iff in H; lia. }
  set (E := Z.max (Zpos (Pos.size m) + e - 53) (-1074)) in *.
  destruct (E - e) as [|k|k] eqn:Ek.
  - apply round_aux_spec; unfold E in *; lia.
  - apply round_aux_spec; unfold E in *; lia.
  - assert (Hv : Zpos m * 2 ^ (e + SC) = Zpos (Pos.iter xO m k) * 2 ^ (E + SC)).
    { rewrite iter_xO, <- Z.mul_assoc, <- Z.pow_add_r by lia. f_equal. f_equal. lia. }
    rewrite Hv in HX |- *. apply round_aux_spec; unfold E in *; lia.
Qed.

Lemma RG_zero : RG 0 = 0.
Proof. reflexivity. Qed.

Lemma normalize_spec (X e : Z) :
  0 <= X -> -SC <= e -> X * 2 ^ (e + SC) < 2 ^ (SC + 1000) ->
  nonneg_sf (binary_normalize 53 1024 X e false) /\
  zval (binary_normalize 53 1024 X e false) = RG (X * 2 ^ (e + SC)).
Proof.
  intros HX He Hb. destruct X as [|p|p]; [|apply round_spec; assumption|lia].
  split; [exact I|reflexivity].
Qed.

Lemma rne_div_mono (X Y k : Z) : 0 <= k -> X <= Y -> rne_div X k <= rne_div Y k.
Proof.
  intros Hk HXY.
  destruct (Z.eq_dec X Y) as [->|Hne]; [lia|].
  assert (HK : 0 < 2 ^ k) by (apply Z.pow_pos_nonneg; lia).
  unfold rne_div.
  pose proof (Z.div_mod X (2 ^ k) ltac:(lia)) as DX.
  pose proof (Z.div_mod Y (2 ^ k) ltac:(lia)) as DY.
  pose proof (Z.mod_pos_bound X (2 ^ k) HK) as BX.
  pose proof (Z.mod_pos_bound Y (2 ^ k) HK) as BY.
  pose proof (Z.div_le_mono X Y (2 ^ k) HK HXY) as Q.
  set (K := 2 ^ k) in *.
  set (qX := X / K) in *. set (qY := Y / K) in *.
  set (rX := X mod K) in *. set (rY := Y mod K) in *.
  destruct (Z.compare_spec (2 * rX) K); destruct (Z.compare_spec (2 * rY) K);
    try destruct (Z.even qX); try destruct (Z.even qY);
    try lia; nia.
Qed.

Lemma RG_nonneg (X : Z) : 0 <= X -> 0 <= RG X.
Proof.
  intros HX. unfold RG, grid.
  apply Z.mul_nonneg_nonneg; [apply rne_div_nonneg; [lia|] | apply Z.pow_nonneg]; try lia.
  unfold SC; lia.
Qed.

Lemma RG_exact (Y g : Z) : 0 <= g -> grid (Y * 2 ^ g) <= g -> RG (Y * 2 ^ g) = Y * 2 ^ g.
Proof.
  intros Hg Hgr. unfold RG. set (h := grid (Y * 2 ^ g)) in *.
  assert (Hh : SC - 1074 <= h) by (unfold h, grid; lia).
  assert (HSC : SC = 2200) by reflexivity.
  replace (Y * 2 ^ g) with ((Y * 2 ^ (g - h)) * 2 ^ h) at 1.
  - rewrite rne_div_exact by lia. rewrite <- Z.mul_assoc, <- Z.pow_add_r by lia.
    f_equal. f_equal. lia.
  - rewrite <- Z.mul_assoc, <- Z.pow_add_r by lia. f_equal. f_equal. lia.
Qed.

Lemma RG_mono (X Y : Z) : 0 <= X <= Y -> RG X <= RG Y.
Proof.
  intros [HX HXY].
  destruct (Z.eq_dec X 0) as [->|HX0]; [rewrite RG_zero; apply RG_nonneg; lia|].
  assert (HSC : SC = 2200) by reflexivity.
  assert (Hl : Z.log2 X <= Z.log2 Y) by (apply Z.log2_le_mono; lia).
  set (L := Z.log2 Y).
  assert (HL : 2 ^ L <= Y < 2 ^ (L + 1)) by (pose proof (Z.log2_spec Y ltac:(lia)) as HH; rewrite <- Z.add_1_r in HH; exact HH).
  assert (HLX : 2 ^ Z.log2 X <= X < 2 ^ (Z.log2 X + 1)) by (pose proof (Z.log2_spec X ltac:(lia)) as HH; rewrite <- Z.add_1_r in HH; exact HH).
  assert (HL0 : 0 <= Z.log2 X) by (apply Z.log2_nonneg).
  destruct (Z.le_gt_cases (grid Y) (grid X)) as [Hg|Hg].
  - (* same grid *)
    assert (Hg' : grid X = grid Y).
    { unfold grid in *. lia. }
    unfold RG. rewrite Hg'. apply Z.mul_le_mono_nonneg_r; [apply Z.pow_nonneg; lia|].
    apply rne_div_mono; [unfold grid; lia | lia].
  - (* the power of two 2^L separates them *)
    assert (HgY : grid Y = L - 52) by (unfold grid in *; fold L in Hg |- *; lia).
    assert (HgX : grid X <= L) by (unfold grid in *; fold L in Hg; lia).
    assert (HXL : X < 2 ^ L).
    { eapply Z.lt_le_trans; [apply HLX|]. apply Z.pow_le_mono_r; [lia|].
      unfold grid in Hg. fold L in Hg. lia. }
    assert (HgX0 : 0 <= grid X) by (unfold grid; lia).
    transitivity (2 ^ L).
    + unfold RG.
      replace (2 ^ L) with (2 ^ (L - grid X) * 2 ^ grid X)
        by (rewrite <- Z.pow_add_r by lia; f_equal; lia).
      apply Z.mul_le_mono_nonneg_r; [apply Z.pow_nonneg; lia|].
      rewrite <- (rne_div_exact (2 ^ (L - grid X)) (grid X)) by lia.
      apply rne_div_mono; [lia|].
      rewrite <- Z.pow_add_r by lia. replace (L - grid X + grid X) with L by lia. lia.
    + unfold RG. rewrite HgY.
      replace (2 ^ L) with (2 ^ 52 * 2 ^ (L - 52)) at 1
        by (rewrite <- Z.pow_add_r by lia; f_equal; lia).
      apply Z.mul_le_mono_nonneg_r; [apply Z.pow_nonneg; lia|].
      rewrite <- (rne_div_exact (2 ^ 52) (L - 52)) at 1 by lia.
      apply rne_div_mono; [lia|].
      rewrite <- Z.pow_add_r by lia. replace (52 + (L - 52)) with L by lia. lia.
Qed.

Lemma valid_facts (s : bool) (m : positive) (e : Z) :
  SpecFloat.valid_binary 53 1024 (S754_finite s m e) = true ->
  Zpos (Pos.size m) <= 53 /\ -1074 <= e <= 971 /\
  (-1074 < e -> Zpos (Pos.size m) = 53).
Proof.
  simpl. unfold bounded, canonical_mantissa. intros H.
  apply andb_prop in H as [H1 H2]. apply Z.eqb_eq in H1. apply Z.leb_le in H2.
  rewrite digits2_pos_size, fexp_eq in H1. lia.
Qed.

Lemma grid_val (m : positive) (e : Z) : -SC <= e ->
  grid (Zpos m * 2 ^ (e + SC)) = Z.max (Zpos (Pos.size m) + e - 53) (-1074) + SC.
Proof.
  intros He. unfold grid. rewrite log2_mul_pow2', log2_pos_size by lia.
  unfold SC in *. lia.
Qed.

Lemma pow_bound (m : positive) (a n : Z) : 0 <= a -> Zpos (Pos.size m) <= n ->
  Zpos m * 2 ^ a < 2 ^ (n + a).
Proof.
  intros Ha Hn. pose proof (pos_size_bounds m) as Hm.
  rewrite Z.pow_add_r by lia.
  apply Z.mul_lt_mono_pos_r; [apply Z.pow_pos_nonneg; lia|].
  eapply Z.lt_le_trans; [apply Hm|]. apply Z.pow_le_mono_r; lia.
Qed.

Lemma pow_lower (m : positive) (a : Z) : 0 <= a ->
  2 ^ (Zpos (Pos.size m) - 1 + a) <= Zpos m * 2 ^ a.
Proof.
  intros Ha. pose proof (pos_size_bounds m) as Hm.
  rewrite Z.pow_add_r by lia.
  apply Z.mul_le_mono_nonneg_r; [apply Z.pow_nonneg; lia|]. lia.
Qed.

Lemma valid_exact (f : spec_float) :
  nonneg_sf f -> SpecFloat.valid_binary 53 1024 f = true ->
  RG (zval f) = zval f /\ 0 <= zval f < 2 ^ (SC + 1024).
Proof.
  intros Hn Hv. destruct f as [s| s| |[|] m e]; try contradiction.
  - split; [reflexivity|]. change (zval (S754_zero s)) with 0. split; [lia|]. apply Z.pow_pos_nonneg; unfold SC; lia.
  - apply valid_facts in Hv as (Hd & He & Hn').
    assert (HSC : SC = 2200) by reflexivity.
    change (zval (S754_finite false m e)) with (Zpos m * 2 ^ (e + SC)).
    split; [|split].
    + apply RG_exact; [lia|]. rewrite grid_val by lia. lia.
    + apply Z.mul_nonneg_nonneg; [lia|apply Z.pow_nonneg; lia].
    + eapply Z.lt_le_trans; [apply (pow_bound m (e + SC) 53); lia|].
      apply Z.pow_le_mono_r; lia.
Qed.

Lemma zval_finite_pos (m : positive) (e : Z) : -SC <= e ->
  0 < zval (S754_finite false m e).
Proof.
  intros He. change (zval (S754_finite false m e)) with (Zpos m * 2 ^ (e + SC)).
  apply Z.mul_pos_pos; [lia|apply Z.pow_pos_nonneg; lia].
Qed.

Lemma compare_spec_nonneg (f g : spec_float) :
  nonneg_sf f -> SpecFloat.valid_binary 53 1024 f = true ->
  nonneg_sf g -> SpecFloat.valid_binary 53 1024 g = true ->
  SFcompare f g = Some (Z.compare (zval f) (zval g)).
Proof.
  intros Hf Vf Hg Vg.
  assert (HSC : SC = 2200) by reflexivity.
  destruct f as [s1| s1| |[|] m1 e1]; try contradiction;
  destruct g as [s2| s2| |[|] m2 e2]; try contradiction.
  - destruct s1, s2; reflexivity.
  - simpl in Hg. pose proof (zval_finite_pos m2 e2 ltac:(lia)).
    simpl SFcompare. f_equal. symmetry. apply Z.compare_lt_iff. change (zval (S754_zero s1)) with 0. lia.
  - simpl in Hf. pose proof (zval_finite_pos m1 e1 ltac:(lia)).
    simpl SFcompare. f_equal. symmetry. apply Z.compare_gt_iff. change (zval (S754_zero s2)) with 0. lia.
  - apply valid_facts in Vf as (Hd1 & He1 & Hn1).
    apply valid_facts in Vg as (Hd2 & He2 & Hn2).
    change (zval (S754_finite false m1 e1)) with (Zpos m1 * 2 ^ (e1 + SC)).
    change (zval (S754_finite false m2 e2)) with (Zpos m2 * 2 ^ (e2 + SC)).
    simpl SFcompare. f_equal.
    destruct (Z.compare_spec e1 e2) as [<-|Hlt|Hgt].
    + change (Pos.compare_cont Eq m1 m2) with (Pos.compare m1 m2).
      assert (HP : 0 < 2 ^ (e1 + SC)) by (apply Z.pow_pos_nonneg; lia).
      destruct (Pos.compare_spec m1 m2) as [<-|H|H]; symmetry.
      * apply Z.compare_eq_iff. reflexivity.
      * apply Z.compare_lt_iff. apply Z.mul_lt_mono_pos_r; lia.
      * apply Z.compare_gt_iff. apply Z.mul_lt_mono_pos_r; lia.
    + symmetry. apply Z.compare_lt_iff.
      pose proof (pow_bound m1 (e1 + SC) 53 ltac:(lia) ltac:(lia)).
      pose proof (pow_lower m2 (e2 + SC) ltac:(lia)).
      assert (2 ^ (53 + (e1 + SC)) <= 2 ^ (Zpos (Pos.size m2) - 1 + (e2 + SC)))
        by (apply Z.pow_le_mono_r; lia).
      lia.
    + symmetry. apply Z.compare_gt_iff.
      pose proof (pow_bound m2 (e2 + SC) 53 ltac:(lia) ltac:(lia)).
      pose proof (pow_lower m1 (e1 + SC) ltac:(lia)).
      assert (2 ^ (53 + (e2 + SC)) <= 2 ^ (Zpos (Pos.size m1) - 1 + (e1 + SC)))
        by (apply Z.pow_le_mono_r; lia).
      lia.
Qed.

Lemma shl_align_val (m : positive) (e ez : Z) : ez <= e -> -SC <= ez ->
  Zpos (fst (shl_align m e ez)) * 2 ^ (ez + SC) = Zpos m * 2 ^ (e + SC).
Proof.
  intros H1 H2. unfold shl_align.
  destruct (ez - e) as [|k|k] eqn:Ek; simpl fst.
  - replace ez with e by lia. reflexivity.
  - lia.
  - rewrite iter_xO, <- Z.mul_assoc, <- Z.pow_add_r by lia. f_equal. f_equal. lia.
Qed.

Lemma sub_spec_nonneg (x a : spec_float) :
  nonneg_sf x -> SpecFloat.valid_binary 53 1024 x = true ->
  nonneg_sf a -> SpecFloat.valid_binary 53 1024 a = true ->
  zval a <= zval x -> zval x < 2 ^ (SC + 1000) ->
  nonneg_sf (SFsub 53 1024 x a) /\ zval (SFsub 53 1024 x a) = RG (zval x - zval a).
Proof.
  intros Hx Vx Ha Va Hle Hb.
  assert (HSC : SC = 2200) by reflexivity.
  destruct x as [sx| sx| |[|] mx ex]; try contradiction;
  destruct a as [sa| sa| |[|] ma ea]; try contradiction.
  - destruct sx, sa; split; try exact I; reflexivity.
  - simpl in Ha. pose proof (zval_finite_pos ma ea ltac:(lia)).
    change (zval (S754_zero sx)) with 0 in Hle. lia.
  - change (zval (S754_zero sa)) with 0. rewrite Z.sub_0_r.
    simpl SFsub. split; [exact Hx|]. symmetry. apply valid_exact; assumption.
  - pose proof Vx as Fx. pose proof Va as Fa.
    apply valid_facts in Fx as (Hd1 & He1 & _).
    apply valid_facts in Fa as (Hd2 & He2 & _).
    change (zval (S754_finite false mx ex)) with (Zpos mx * 2 ^ (ex + SC)) in *.
    change (zval (S754_finite false ma ea)) with (Zpos ma * 2 ^ (ea + SC)) in *.
    simpl SFsub. cbv zeta. simpl cond_Zopp.
    set (ez := Z.min ex ea).
    pose proof (shl_align_val mx ex ez ltac:(lia) ltac:(lia)) as Ex.
    pose proof (shl_align_val ma ea ez ltac:(lia) ltac:(lia)) as Ea.
    set (X := Zpos (fst (shl_align mx ex ez))) in *.
    set (A := Zpos (fst (shl_align ma ea ez))) in *.
    assert (HP : 0 < 2 ^ (ez + SC)) by (apply Z.pow_pos_nonneg; lia).
    assert (HXA : 0 <= X - A) by nia.
    rewrite <- Ex, <- Ea, <- Z.mul_sub_distr_r.
    apply normalize_spec; [lia|lia|]. nia.
Qed.

Lemma add_spec_nonneg (x y : spec_float) :
  nonneg_sf x -> SpecFloat.valid_binary 53 1024 x = true ->
  nonneg_sf y -> SpecFloat.valid_binary 53 1024 y = true ->
  zval x + zval y < 2 ^ (SC + 1000) ->
  nonneg_sf (SFadd 53 1024 x y) /\ zval (SFadd 53 1024 x y) = RG (zval x + zval y).
Proof.
  intros Hx Vx Hy Vy Hb.
  assert (HSC : SC = 2200) by reflexivity.
  destruct x as [sx| sx| |[|] mx ex]; try contradiction;
  destruct y as [sy| sy| |[|] my ey]; try contradiction.
  - destruct sx, sy; split; try exact I; reflexivity.
  - change (zval (S754_zero sx)) with 0. simpl SFadd.
    split; [exact Hy|]. symmetry. apply valid_exact; assumption.
  - change (zval (S754_zero sy)) with 0. rewrite Z.add_0_r. simpl SFadd.
    split; [exact Hx|]. symmetry. apply valid_exact; assumption.
  - pose proof Vx as Fx. pose proof Vy as Fy.
    apply valid_facts in Fx as (Hd1 & He1 & _).
    apply valid_facts in Fy as (Hd2 & He2 & _).
    change (zval (S754_finite false mx ex)) with (Zpos mx * 2 ^ (ex + SC)) in *.
    change (zval (S754_finite false my ey)) with (Zpos my * 2 ^ (ey + SC)) in *.
    change (SFadd 53 1024 (S754_finite false mx ex) (S754_finite false my ey))
      with (binary_normalize 53 1024 (Zpos (fst (shl_align mx ex (Z.min ex ey)))
              + Zpos (fst (shl_align my ey (Z.min ex ey)))) (Z.min ex ey) false).
    set (ez := Z.min ex ey).
    pose proof (shl_align_val mx ex ez ltac:(lia) ltac:(lia)) as Ex.
    pose proof (shl_align_val my ey ez ltac:(lia) ltac:(lia)) as Ey.
    set (X := Zpos (fst (shl_align mx ex ez))) in *.
    set (Y := Zpos (fst (shl_align my ey ez))) in *.
    rewrite <- Ex, <- Ey, <- Z.mul_add_distr_r.
    apply normalize_spec; [lia|lia|]. nia.
Qed.

Lemma mul_spec_nonneg (k y : spec_float) :
  nonneg_sf k -> SpecFloat.valid_binary 53 1024 k = true ->
  nonneg_sf y -> SpecFloat.valid_binary 53 1024 y = true ->
  zval k < 2 ^ (SC + 400) -> zval y < 2 ^ (SC + 400) ->
  nonneg_sf (SFmul 53 1024 k y) /\
  zval (SFmul 53 1024 k y) = RG (zval k * zval y / 2 ^ SC).
Proof.
  intros Hk Vk Hy Vy Bk By.
  assert (HSC : SC = 2200) by reflexivity.
  destruct k as [sk| sk| |[|] mk ek]; try contradiction;
  destruct y as [sy| sy| |[|] my ey]; try contradiction.
  1: split; [exact I|reflexivity].
  1: simpl SFmul; split; [exact I|]; change (zval (S754_zero sk)) with 0;
     rewrite Z.mul_0_l; reflexivity.
  1: simpl SFmul; split; [exact I|]; change (zval (S754_zero sy)) with 0;
     rewrite Z.mul_0_r; reflexivity.
  pose proof Vk as Fk. pose proof Vy as Fy.
  apply valid_facts in Fk as (Hd1 & He1 & Hn1).
  apply valid_facts in Fy as (Hd2 & He2 & Hn2).
  change (zval (S754_finite false mk ek)) with (Zpos mk * 2 ^ (ek + SC)) in *.
  change (zval (S754_finite false my ey)) with (Zpos my * 2 ^ (ey + SC)) in *.
  assert (Hek : ek < 400).
  { destruct (Z.eq_dec ek (-1074)); [lia|].
    pose proof (pow_lower mk (ek + SC) ltac:(lia)).
    assert (2 ^ (Zpos (Pos.size mk) - 1 + (ek + SC)) < 2 ^ (SC + 400)) by lia.
    apply Z.pow_lt_mono_r_iff in H0; lia. }
  assert (Hey : ey < 400).
  { destruct (Z.eq_dec ey (-1074)); [lia|].
    pose proof (pow_lower my (ey + SC) ltac:(lia)).
    assert (2 ^ (Zpos (Pos.size my) - 1 + (ey + SC)) < 2 ^ (SC + 400)) by lia.
    apply Z.pow_lt_mono_r_iff in H0; lia. }
  assert (Hprod : Zpos mk * 2 ^ (ek + SC) * (Zpos my * 2 ^ (ey + SC)) / 2 ^ SC
                  = Zpos (mk * my) * 2 ^ (ek + ey + SC)).
  { rewrite Pos2Z.inj_mul.
    replace (Zpos mk * 2 ^ (ek + SC) * (Zpos my * 2 ^ (ey + SC)))
      with (Zpos mk * Zpos my * 2 ^ (ek + ey + SC) * 2 ^ SC).
    - apply Z.div_mul. apply Z.pow_nonzero; lia.
    - replace (ek + ey + SC) with ((ek + SC) + (ey + SC) - SC) by lia.
      assert (E : 2 ^ (ek + SC + (ey + SC) - SC) * 2 ^ SC = 2 ^ (ek + SC) * 2 ^ (ey + SC)).
      { rewrite <- !Z.pow_add_r by lia. f_equal. lia. }
      rewrite <- Z.mul_assoc, E. ring. }
  rewrite Hprod. simpl SFmul.
  apply round_aux_spec; [lia|lia|].
  rewrite <- Hprod.
  apply Z.div_lt_upper_bound; [apply Z.pow_pos_nonneg; lia|].
  assert (E : 2 ^ SC * 2 ^ (SC + 1000) = 2 ^ (SC + 400) * 2 ^ (SC + 400) * 2 ^ 200)
    by (rewrite <- !Z.pow_add_r by lia; f_equal; lia).
  rewrite E.
  assert (0 <= Zpos mk * 2 ^ (ek + SC)) by (apply Z.mul_nonneg_nonneg; [lia|apply Z.pow_nonneg; lia]).
  assert (0 <= Zpos my * 2 ^ (ey + SC)) by (apply Z.mul_nonneg_nonneg; [lia|apply Z.pow_nonneg; lia]).
  assert (0 < 2 ^ 200) by (apply Z.pow_pos_nonneg; lia).
  nia.
Qed.

Lemma trunc_spec (f : spec_float) : nonneg_sf f ->
  match f with
  | S754_finite false m e => Z.min (Z.shiftl (Zpos m) e) u32_max
  | S754_infinity false => u32_max
  | _ => 0
  end = Z.min (zval f / 2 ^ SC) u32_max.
Proof.
  intros Hf. assert (HSC : SC = 2200) by reflexivity.
  destruct f as [s| s| |[|] m e]; try contradiction.
  - change (zval (S754_zero s)) with 0. reflexivity.
  - change (zval (S754_finite false m e)) with (Zpos m * 2 ^ (e + SC)).
    simpl in Hf. f_equal.
    destruct (Z.le_gt_cases 0 e).
    + rewrite Z.shiftl_mul_pow2 by lia.
      rewrite Z.pow_add_r, Z.mul_assoc, Z.div_mul by (try apply Z.pow_nonzero; lia).
      reflexivity.
    + replace e with (- (- e)) at 1 by lia. rewrite Z.shiftl_opp_r, Z.shiftr_div_pow2 by lia.
      replace (2 ^ SC) with (2 ^ (e + SC) * 2 ^ (- e))
        by (rewrite <- Z.pow_add_r by lia; f_equal; lia).
      rewrite (Z.mul_comm (Zpos m)), Z.div_mul_cancel_l; [reflexivity| |]; apply Z.pow_nonzero; lia.
Qed.


Lemma f64_as_u32_nonneg (x : float) : 0 <= f64_as_u32 x.
Proof.
  unfold f64_as_u32, u32_max. destruct (Prim2SF x) as [s|[|]| |[|] m e]; try lia.
  apply Z.min_glb; [apply Z.shiftl_nonneg |]; lia.
Qed.

(** The scan on a table of seven thresholds, unrolled. *)
Lemma scan_unfold (datum v0 v1 v2 v3 v4 v5 v6 : float) :
  scan 8 datum [v0; v1; v2; v3; v4; v5; v6] 0 =
  Some (if (v0 <=? datum)%float then
        if (v1 <=? datum)%float then
        if (v2 <=? datum)%float then
        if (v3 <=? datum)%float then
        if (v4 <=? datum)%float then
        if (v5 <=? datum)%float then
        if (v6 <=? datum)%float then 7%nat else 6%nat
        else 5%nat else 4%nat else 3%nat else 2%nat else 1%nat else 0%nat).
Proof.
  simpl. repeat (destruct (_ <=? datum)%float); reflexivity.
Qed.

Ltac destruct_table v Hlen :=
  let v0 := fresh "v0" in let v1 := fresh "v1" in let v2 := fresh "v2" in
  let v3 := fresh "v3" in let v4 := fresh "v4" in let v5 := fresh "v5" in
  let v6 := fresh "v6" in
  destruct v as [|v0 [|v1 [|v2 [|v3 [|v4 [|v5 [|v6 [|]]]]]]]];
  simpl in Hlen; try discriminate.

(** The index the scan selects: the first threshold that [datum] does not
    reach, or 7 when it reaches them all. *)
Lemma scan_selects (v : list float) (datum : float) (i : nat) :
  length v = 7%nat ->
  scan 8 datum v 0 = Some i <->
  (i <= 7)%nat /\
  (forall j vj, (j < i)%nat -> v !! j = Some vj -> (vj <=? datum)%float = true) /\
  (forall vi, v !! i = Some vi -> (vi <=? datum)%float = false).
Proof.
  intros Hlen. destruct_table v Hlen. rewrite scan_unfold.
  split.
  - intros H. injection H as <-.
    repeat match goal with |- context [if (?a <=? datum)%float then _ else _] =>
      let E := fresh "E" in destruct (a <=? datum)%float eqn:E end;
    (split; [lia | split;
    [ intros j vj Hj Hl; destruct j as [|[|[|[|[|[|[|j]]]]]]]; simpl in Hl;
      try (injection Hl as <-); try discriminate; try assumption; lia
    | intros vi Hl; simpl in Hl; try (injection Hl as <-); try discriminate;
      assumption ]]).
  - intros (Hi & Hlt & Hge). f_equal.
    destruct i as [|[|[|[|[|[|[|[|i]]]]]]]]; try lia;
    try rewrite (Hlt 0%nat v0) by (reflexivity || lia);
    try rewrite (Hlt 1%nat v1) by (reflexivity || lia);
    try rewrite (Hlt 2%nat v2) by (reflexivity || lia);
    try rewrite (Hlt 3%nat v3) by (reflexivity || lia);
    try rewrite (Hlt 4%nat v4) by (reflexivity || lia);
    try rewrite (Hlt 5%nat v5) by (reflexivity || lia);
    try rewrite (Hlt 6%nat v6) by (reflexivity || lia);
    try (rewrite Hge by reflexivity); reflexivity.
Qed.

Lemma compute_one_aqi_nonneg (datum : float) (v : list float) (a : Z) :
  compute_one_aqi datum v = Some a -> 0 <= a.
Proof.
  unfold compute_one_aqi. intros H. cbv [mbind option_bind] in H.
  repeat match type of H with
    | context [match ?x with _ => _ end] => destruct x; simpl in H
    end; try discriminate.
  injection H as <-. apply f64_as_u32_nonneg.
Qed.

(** ** C2 *)

(** C2: [compute_one_aqi] interpolates linearly, in binary64 arithmetic,
    between the endpoints of the bracket [i] the scan selects and truncates
    the result toward zero ([as u32]); on the PM2.5 table, 0.0 gives 0, 9.0
    gives 50 and 12.0 gives 55, and every breakpoint below the top one gives
    exactly the AQI of that breakpoint, on the PM2.5 and on the PM10 table. *)
Theorem compute_one_aqi_interpolation :
  (forall (v : list float) (datum : float) (i : nat),
     length v = 7%nat -> (1 <= i <= 6)%nat -> scan 8 datum v 0 = Some i ->
     compute_one_aqi datum v =
       Some (f64_as_u32
         (((nth i AQI 0 - nth (i - 1) AQI 0) / (nth i v 0 - nth (i - 1) v 0))
            * (datum - nth (i - 1) v 0) + nth (i - 1) AQI 0)%float)) /\
  compute_one_aqi 0.0 PM02 = Some 0 /\
  compute_one_aqi 9.0 PM02 = Some 50 /\
  compute_one_aqi 12.0 PM02 = Some 55 /\
  map (λ c, compute_one_aqi c PM02) (take 6 PM02) = map Some [0; 50; 100; 150; 200; 300] /\
  map (λ c, compute_one_aqi c PM10) (take 6 PM10) = map Some [0; 50; 100; 150; 200; 300].
Proof.
  split; [|repeat split; vm_compute; reflexivity].
  intros v datum i Hlen Hi Hs. unfold compute_one_aqi. rewrite Hs.
  destruct_table v Hlen.
  destruct i as [|[|[|[|[|[|[|i]]]]]]]; try lia; reflexivity.
Qed.

(** ** C3 *)

(** C3: [compute_aqi] is the larger of the PM2.5 sub-index (the PM2.5 table
    applied to [pm02]) and the PM10 sub-index (the PM10 table applied to
    [pm10]), and panics when one of them panics; no other field of the
    reading (NOx in particular) enters the result. A reading whose PM2.5 maps
    to 50 and whose PM10 maps to 100 gives 100. *)
Theorem compute_aqi_max_of_subindices :
  (forall data : AirGradientData,
     compute_aqi data =
       (a ← compute_one_aqi (i32_as_f64 (pm02 data)) PM02;
        b ← compute_one_aqi (i32_as_f64 (pm10 data)) PM10;
        Some (Z.max a b))) /\
  (forall d1 d2 : AirGradientData,
     pm02 d1 = pm02 d2 -> pm10 d1 = pm10 d2 -> compute_aqi d1 = compute_aqi d2) /\
  compute_one_aqi (i32_as_f64 9) PM02 = Some 50 /\
  compute_one_aqi (i32_as_f64 154) PM10 = Some 100 /\
  compute_aqi (reading_pm 9 154) = Some 100.
Proof.
  assert (Hmax : forall data : AirGradientData,
     compute_aqi data =
       (a ← compute_one_aqi (i32_as_f64 (pm02 data)) PM02;
        b ← compute_one_aqi (i32_as_f64 (pm10 data)) PM10;
        Some (Z.max a b))).
  { intros data. unfold compute_aqi.
    destruct (compute_one_aqi (i32_as_f64 (pm02 data)) PM02) as [a|] eqn:Ha;
      simpl; [|reflexivity].
    destruct (compute_one_aqi (i32_as_f64 (pm10 data)) PM10) as [b|]; simpl;
      [|reflexivity].
    f_equal. apply compute_one_aqi_nonneg in Ha. lia. }
  split; [exact Hmax|]. split.
  - intros d1 d2 H2 H10. rewrite !Hmax, H2, H10. reflexivity.
  - repeat split; vm_compute; reflexivity.
Qed.

(** ** C1 *)

(** C1 (the scan overruns): a datum at or above the top threshold makes the
    scan run past index 6 to [i = 7], and [AQI[7]] panics instead of the top
    bracket being used: 325.4 on the PM2.5 table and 604.0 on the PM10 table
    panic, and so does [compute_aqi] on a reading with PM2.5 = 326. Below
    the top threshold the scan stops at an index in [1, 6]. *)
Theorem compute_one_aqi_top_threshold_panics :
  scan 8 325.4 PM02 0 = Some 7%nat /\
  compute_one_aqi 325.4 PM02 = None /\
  compute_one_aqi 1000.0 PM02 = None /\
  scan 8 604.0 PM10 0 = Some 7%nat /\
  compute_one_aqi 604.0 PM10 = None /\
  compute_aqi (reading_pm 326 0) = None /\
  scan 8 325.3 PM02 0 = Some 6%nat /\
  compute_one_aqi 325.3 PM02 = Some 499.
Proof. repeat split; vm_compute; reflexivity. Qed.

(** ** Binary64 evaluation of [compute_one_aqi] *)

Lemma nonneg_sfb_sound (f : spec_float) : nonneg_sfb f = true -> nonneg_sf f.
Proof.
  destruct f as [s| s| |[|] m e]; simpl; try discriminate; try (intros; exact I).
  intros H. apply Z.leb_le in H. exact H.
Qed.

Lemma float_valid (x : float) : SpecFloat.valid_binary 53 1024 (Prim2SF x) = true.
Proof. exact (Prim2SF_valid x). Qed.

Lemma zval_nonneg (f : spec_float) : nonneg_sf f -> 0 <= zval f.
Proof.
  intros H. destruct f as [s| s| |[|] m e]; try contradiction.
  - change (zval (S754_zero s)) with 0. lia.
  - change (zval (S754_finite false m e)) with (Zpos m * 2 ^ (e + SC)).
    simpl in H. unfold SC.
    apply Z.mul_nonneg_nonneg; [lia|apply Z.pow_nonneg; lia].
Qed.

Lemma leb_zv (x y : float) :
  nonneg_sf (Prim2SF x) -> nonneg_sf (Prim2SF y) ->
  (x <=? y)%float = (zv x <=? zv y).
Proof.
  intros Hx Hy. rewrite FloatAxioms.leb_spec. unfold SFleb, zv.
  rewrite compare_spec_nonneg by (auto using float_valid).
  destruct (Z.compare_spec (zval (Prim2SF x)) (zval (Prim2SF y))); symmetry;
    [apply Z.leb_le | apply Z.leb_le | apply Z.leb_gt]; lia.
Qed.

Lemma ltb_zv (x y : float) :
  nonneg_sf (Prim2SF x) -> nonneg_sf (Prim2SF y) ->
  (x <? y)%float = (zv x <? zv y).
Proof.
  intros Hx Hy. rewrite FloatAxioms.ltb_spec. unfold SFltb, zv.
  rewrite compare_spec_nonneg by (auto using float_valid).
  destruct (Z.compare_spec (zval (Prim2SF x)) (zval (Prim2SF y))); symmetry;
    [apply Z.ltb_ge | apply Z.ltb_lt | apply Z.ltb_ge]; lia.
Qed.

Lemma between_nonneg (c d w : float) :
  (0 <=? c)%float = true -> (c <=? d)%float = true -> (d <? w)%float = true ->
  nonneg_sf (Prim2SF c) /\ nonneg_sf (Prim2SF d).
Proof.
  rewrite !FloatAxioms.leb_spec, FloatAxioms.ltb_spec.
  change (Prim2SF 0%float) with (S754_zero false).
  pose proof (float_valid c) as Vc. pose proof (float_valid d) as Vd.
  destruct (Prim2SF c) as [sc| [|] | |[|] mc ec];
  destruct (Prim2SF d) as [sd| [|] | |[|] md ed];
  intros H1 H2 H3; try discriminate;
  try (destruct (Prim2SF w) as [sw| [|] | |[|] mw ew]; discriminate);
  (split; [try apply valid_facts in Vc; simpl; lia || exact I
          |try apply valid_facts in Vd; simpl; lia || exact I]).
Qed.

Lemma RG_le_pow (X n : Z) : 0 <= X <= 2 ^ n -> SC <= n -> RG X <= 2 ^ n.
Proof.
  intros HX Hn.
  assert (HSC : SC = 2200) by reflexivity.
  assert (E : RG (1 * 2 ^ n) = 1 * 2 ^ n).
  { apply RG_exact; [lia|]. unfold grid. rewrite Z.mul_1_l, Z.log2_pow2 by lia. lia. }
  rewrite Z.mul_1_l in E. rewrite <- E. apply RG_mono. lia.
Qed.

Lemma affine_eval (K w A c : float) :
  nonneg_sf (Prim2SF K) -> nonneg_sf (Prim2SF w) -> nonneg_sf (Prim2SF A) ->
  nonneg_sf (Prim2SF c) -> zv w <= zv c -> zv c < 2 ^ (SC + 100) ->
  zv K < 2 ^ (SC + 100) -> zv A < 2 ^ (SC + 100) ->
  f64_as_u32 (K * (c - w) + A)%float = Gz (zv K) (zv w) (zv A) (zv c).
Proof.
  intros HK Hw HA Hc Hwc Bc BK BA.
  assert (HSC : SC = 2200) by reflexivity.
  assert (P100 : 2 ^ (SC + 100) < 2 ^ (SC + 400)) by (apply Z.pow_lt_mono_r; lia).
  assert (P200 : 2 ^ (SC + 200) < 2 ^ (SC + 400)) by (apply Z.pow_lt_mono_r; lia).
  assert (P1000 : 2 ^ (SC + 200) + 2 ^ (SC + 100) < 2 ^ (SC + 1000)).
  { assert (2 ^ (SC + 100) < 2 ^ (SC + 200)) by (apply Z.pow_lt_mono_r; lia).
    assert (2 * 2 ^ (SC + 200) <= 2 ^ (SC + 1000)).
    { rewrite <- Z.pow_succ_r by lia. apply Z.pow_le_mono_r; lia. }
    lia. }
  pose proof (zval_nonneg _ Hw) as Nw. pose proof (zval_nonneg _ HK) as NK.
  pose proof (zval_nonneg _ HA) as NA.
  unfold zv in *.
  (* c - w *)
  destruct (sub_spec_nonneg (Prim2SF c) (Prim2SF w) Hc (float_valid c) Hw (float_valid w)
              Hwc ltac:(lia)) as [Hs Vs].
  rewrite <- FloatAxioms.sub_spec in Hs, Vs.
  set (s := (c - w)%float) in *.
  pose proof (zval_nonneg _ Hs) as Ns.
  assert (Bs : zval (Prim2SF s) <= 2 ^ (SC + 100)).
  { rewrite Vs. apply RG_le_pow; lia. }
  (* K * (c - w) *)
  destruct (mul_spec_nonneg (Prim2SF K) (Prim2SF s) HK (float_valid K) Hs (float_valid s)
              ltac:(lia) ltac:(lia)) as [Hp Vp].
  rewrite <- FloatAxioms.mul_spec in Hp, Vp.
  set (p := (K * s)%float) in *.
  pose proof (zval_nonneg _ Hp) as Np.
  assert (Bp : zval (Prim2SF p) <= 2 ^ (SC + 200)).
  { rewrite Vp. apply RG_le_pow; [|lia]. split.
    - apply Z.div_pos; [nia|apply Z.pow_pos_nonneg; lia].
    - apply Z.div_le_upper_bound; [apply Z.pow_pos_nonneg; lia|].
      replace (2 ^ SC * 2 ^ (SC + 200)) with (2 ^ (SC + 100) * 2 ^ (SC + 100))
        by (rewrite <- !Z.pow_add_r by lia; f_equal; lia).
      apply Z.mul_le_mono_nonneg; lia. }
  (* K * (c - w) + A *)
  destruct (add_spec_nonneg (Prim2SF p) (Prim2SF A) Hp (float_valid p) HA (float_valid A)
              ltac:(lia)) as [Ha Va].
  rewrite <- FloatAxioms.add_spec in Ha, Va.
  unfold f64_as_u32. rewrite trunc_spec by exact Ha.
  rewrite Va, Vp, Vs. reflexivity.
Qed.

Lemma Gz_mono (k w a X1 X2 : Z) : 0 <= k -> 0 <= a -> w <= X1 <= X2 ->
  Gz k w a X1 <= Gz k w a X2.
Proof.
  intros Hk Ha HX. unfold Gz.
  assert (HP : 0 < 2 ^ SC) by (apply Z.pow_pos_nonneg; unfold SC; lia).
  apply Z.min_le_compat_r. apply Z.div_le_mono; [lia|].
  apply RG_mono. split.
  - pose proof (RG_nonneg (k * RG (X1 - w) / 2 ^ SC)). 
    assert (0 <= RG (X1 - w)) by (apply RG_nonneg; lia).
    assert (0 <= k * RG (X1 - w) / 2 ^ SC) by (apply Z.div_pos; nia).
    specialize (H H1). lia.
  - apply Z.add_le_mono_r. apply RG_mono.
    assert (0 <= RG (X1 - w)) by (apply RG_nonneg; lia).
    assert (RG (X1 - w) <= RG (X2 - w)) by (apply RG_mono; lia).
    split; [apply Z.div_pos; nia|].
    apply Z.div_le_mono; [lia|]. nia.
Qed.

Lemma lookup_nth (v : list float) (j : nat) :
  (j < length v)%nat -> v !! j = Some (nth j v 0%float).
Proof. intros H. destruct (nth_lookup_or_length v j 0%float); [assumption|lia]. Qed.

Lemma scan_some (v : list float) (c : float) :
  length v = 7%nat -> exists i, scan 8 c v 0 = Some i.
Proof. intros Hlen. destruct_table v Hlen. rewrite scan_unfold. eauto. Qed.

Lemma compute_one_aqi_in_bracket (v : list float) (c : float) (i : nat) :
  length v = 7%nat -> (1 <= i <= 6)%nat -> scan 8 c v 0 = Some i ->
  compute_one_aqi c v = Some (f64_as_u32 (bracket_value v i c)).
Proof.
  intros Hlen Hi Hs. unfold compute_one_aqi. rewrite Hs.
  destruct_table v Hlen.
  destruct i as [|[|[|[|[|[|[|i]]]]]]]; try lia; reflexivity.
Qed.

Lemma table_facts (v : list float) : table_checks v = true ->
  length v = 7%nat /\ zv (nth 0 v 0%float) = 0 /\
  (forall j, (j < 7)%nat ->
     nonneg_sf (Prim2SF (nth j v 0%float)) /\ zv (nth j v 0%float) < 2 ^ (SC + 100)) /\
  (forall j, (1 <= j <= 6)%nat ->
     nonneg_sf (Prim2SF (slope v j)) /\ zv (slope v j) < 2 ^ (SC + 100) /\
     nonneg_sf (Prim2SF (nth (j - 1) AQI 0%float)) /\
     zv (nth (j - 1) AQI 0%float) < 2 ^ (SC + 100)) /\
  (forall i i', (1 <= i)%nat -> (i < i')%nat -> (i' <= 6)%nat ->
     f64_as_u32 (bracket_value v i (nth i v 0%float)) <=
     f64_as_u32 (bracket_value v i' (nth (i' - 1) v 0%float))).
Proof.
  unfold table_checks. intros H.
  repeat match type of H with (_ && _) = true => apply andb_prop in H as [H ?] end.
  rename H into Hlen. apply Nat.eqb_eq in Hlen.
  match goal with H : (zv _ =? 0) = true |- _ => apply Z.eqb_eq in H end.
  split; [exact Hlen|]. split; [assumption|].
  assert (In6 : forall j, (1 <= j <= 6)%nat -> In j [1; 2; 3; 4; 5; 6]%nat).
  { intros j Hj. destruct j as [|[|[|[|[|[|[|j]]]]]]]; simpl; try lia; tauto. }
  split; [|split].
  - intros j Hj.
    match goal with H : forallb _ v = true |- _ => rewrite forallb_forall in H; rename H into Hv end.
    assert (Hjl : (j < length v)%nat) by lia.
    specialize (Hv (nth j v 0%float) (nth_In v _ Hjl)).
    apply andb_prop in Hv as [Hvn Hvb]. split; [apply nonneg_sfb_sound; exact Hvn|].
    apply Z.ltb_lt; exact Hvb.
  - intros j Hj.
    match goal with H : forallb _ [1; 2; 3; 4; 5; 6]%nat = true,
                    H' : forallb _ [1; 2; 3; 4; 5; 6]%nat = true |- _ =>
      rewrite forallb_forall in H; specialize (H j (In6 j Hj));
      repeat match type of H with (_ && _) = true => apply andb_prop in H as [H ?] end
    end.
    repeat split; try (apply nonneg_sfb_sound; assumption); apply Z.ltb_lt; assumption.
  - intros i i' Hi Hii' Hi'.
    match goal with H : forallb (λ i, forallb _ _) _ = true |- _ => rename H into Hx end.
    rewrite forallb_forall in Hx. specialize (Hx i (In6 i ltac:(lia))).
    rewrite forallb_forall in Hx. specialize (Hx i' ltac:(apply in_seq; lia)).
    apply Z.leb_le. exact Hx.
Qed.

Lemma bracket_eval (v : list float) (j : nat) (c : float) :
  table_checks v = true -> (1 <= j <= 6)%nat -> nonneg_sf (Prim2SF c) ->
  zv (nth (j - 1) v 0%float) <= zv c -> zv c < 2 ^ (SC + 100) ->
  f64_as_u32 (bracket_value v j c) =
  Gz (zv (slope v j)) (zv (nth (j - 1) v 0%float)) (zv (nth (j - 1) AQI 0%float)) (zv c).
Proof.
  intros Ht Hj Hc Hw Hb.
  destruct (table_facts v Ht) as (Hlen & H0 & Hv & Hs & _).
  destruct (Hs j Hj) as (HK & BK & HA & BA).
  destruct (Hv (j - 1)%nat ltac:(lia)) as [Hw' _].
  unfold bracket_value. apply affine_eval; assumption.
Qed.

Lemma bracket_of (v : list float) (c : float) :
  table_checks v = true -> nonneg_sf (Prim2SF c) -> zv c < zv (nth 6 v 0%float) ->
  exists i, (1 <= i <= 6)%nat /\ scan 8 c v 0 = Some i /\
    (forall j, (j < i)%nat -> zv (nth j v 0%float) <= zv c) /\
    zv c < zv (nth i v 0%float).
Proof.
  intros Ht Hc Hlt.
  destruct (table_facts v Ht) as (Hlen & H0 & Hv & _ & _).
  destruct (scan_some v c Hlen) as [i Hi].
  pose proof Hi as Hsel. apply scan_selects in Hsel as (Hi7 & Hbelow & Habove); [|exact Hlen].
  assert (Hb : forall j, (j < i)%nat -> zv (nth j v 0%float) <= zv c).
  { intros j Hj. destruct (Hv j ltac:(lia)) as [Hn _].
    specialize (Hbelow j (nth j v 0%float) Hj (lookup_nth v j ltac:(lia))).
    rewrite leb_zv in Hbelow by assumption. apply Z.leb_le. exact Hbelow. }
  destruct (Nat.eq_dec i 7%nat) as [->|Hne7].
  { specialize (Hb 6%nat ltac:(lia)). lia. }
  assert (Ha : zv c < zv (nth i v 0%float)).
  { destruct (Hv i ltac:(lia)) as [Hn _].
    specialize (Habove (nth i v 0%float) (lookup_nth v i ltac:(lia))).
    rewrite leb_zv in Habove by assumption. apply Z.leb_gt. exact Habove. }
  destruct (Nat.eq_dec i 0%nat) as [->|Hne0].
  { pose proof (zval_nonneg _ Hc). unfold zv in *. lia. }
  exists i. repeat split; try lia; assumption.
Qed.

Lemma monotone_table (v : list float) (c1 c2 : float) :
  table_checks v = true ->
  (0 <=? c1)%float = true -> (c1 <=? c2)%float = true ->
  (c2 <? nth 6 v 0%float)%float = true ->
  exists a1 a2, compute_one_aqi c1 v = Some a1 /\ compute_one_aqi c2 v = Some a2 /\
    a1 <= a2.
Proof.
  intros Ht H0 H12 H2.
  destruct (table_facts v Ht) as (Hlen & Hz & Hv & Hs & Hx).
  destruct (between_nonneg c1 c2 _ H0 H12 H2) as [N1 N2].
  destruct (Hv 6%nat ltac:(lia)) as [N6 B6].
  rewrite ltb_zv in H2 by assumption. apply Z.ltb_lt in H2.
  rewrite leb_zv in H12 by assumption. apply Z.leb_le in H12.
  destruct (bracket_of v c1 Ht N1 ltac:(lia)) as (i1 & Hi1 & Hs1 & Hb1 & Ha1).
  destruct (bracket_of v c2 Ht N2 ltac:(lia)) as (i2 & Hi2 & Hs2 & Hb2 & Ha2).
  assert (Hle : (i1 <= i2)%nat).
  { destruct (Nat.le_gt_cases i1 i2) as [?|Hgt]; [assumption|].
    specialize (Hb1 i2 Hgt). lia. }
  rewrite (compute_one_aqi_in_bracket v c1 i1 Hlen Hi1 Hs1).
  rewrite (compute_one_aqi_in_bracket v c2 i2 Hlen Hi2 Hs2).
  do 2 eexists. split; [reflexivity|]. split; [reflexivity|].
  destruct (Hs i1 Hi1) as (HK1 & _ & HA1 & _).
  destruct (Hs i2 Hi2) as (HK2 & _ & HA2 & _).
  pose proof (zval_nonneg _ HK1). pose proof (zval_nonneg _ HA1).
  pose proof (zval_nonneg _ HK2). pose proof (zval_nonneg _ HA2).
  assert (W1 := Hb1 (i1 - 1)%nat ltac:(lia)).
  assert (W2 := Hb2 (i2 - 1)%nat ltac:(lia)).
  destruct (Nat.eq_dec i1 i2) as [<-|Hne].
  - rewrite !bracket_eval by (try assumption; lia).
    apply Gz_mono; unfold zv in *; lia.
  - destruct (Hv i1 ltac:(lia)) as [Nv1 Bv1].
    destruct (Hv (i2 - 1)%nat ltac:(lia)) as [Nv2 Bv2].
    transitivity (f64_as_u32 (bracket_value v i1 (nth i1 v 0%float))).
    { rewrite !bracket_eval by (try assumption; lia).
      apply Gz_mono; unfold zv in *; lia. }
    transitivity (f64_as_u32 (bracket_value v i2 (nth (i2 - 1) v 0%float))).
    { apply Hx; lia. }
    rewrite !bracket_eval by (try assumption; lia).
    apply Gz_mono; unfold zv in *; lia.
Qed.

Lemma range_nonneg (c w : float) :
  (0 <=? c)%float = true -> (c <? w)%float = true -> nonneg_sf (Prim2SF c).
Proof.
  rewrite FloatAxioms.leb_spec, FloatAxioms.ltb_spec.
  change (Prim2SF 0%float) with (S754_zero false).
  pose proof (float_valid c) as Vc.
  destruct (Prim2SF c) as [sc| [|] | |[|] mc ec]; intros H1 H2; try discriminate;
  try (destruct (Prim2SF w) as [sw| [|] | |[|] mw ew]; discriminate);
  try exact I. apply valid_facts in Vc. simpl. lia.
Qed.

Lemma nonneg_of_not_le (c w : float) :
  (0 <=? c)%float = true -> (w <=? c)%float = false -> nonneg_sf (Prim2SF w) ->
  nonneg_sf (Prim2SF c).
Proof.
  rewrite !FloatAxioms.leb_spec.
  change (Prim2SF 0%float) with (S754_zero false).
  pose proof (float_valid c) as Vc.
  destruct (Prim2SF c) as [sc| [|] | |[|] mc ec]; intros H1 H2 Hw; try discriminate;
  try exact I.
  - destruct (Prim2SF w) as [sw| [|] | |[|] mw ew]; try contradiction; discriminate.
  - apply valid_facts in Vc. simpl. lia.
Qed.

Lemma RG_ge_unit (X : Z) : 2 ^ SC <= X -> 2 ^ SC <= RG X.
Proof.
  intros HX. assert (HSC : SC = 2200) by reflexivity.
  assert (E : RG (1 * 2 ^ SC) = 1 * 2 ^ SC).
  { apply RG_exact; [lia|]. unfold grid. rewrite Z.mul_1_l, Z.log2_pow2 by lia. lia. }
  rewrite Z.mul_1_l in E. rewrite <- E. apply RG_mono.
  split; [apply Z.pow_nonneg; lia | exact HX].
Qed.

Lemma i32_as_f64_neg (z : Z) : - 2 ^ 31 <= z < 0 -> (0 <=? i32_as_f64 z)%float = false.
Proof.
  intros Hz. unfold i32_as_f64.
  destruct (Z.ltb_spec z 0) as [_|]; [|lia].
  rewrite FloatAxioms.leb_spec, FloatAxioms.opp_spec, FloatAxioms.of_uint63_spec.
  rewrite Uint63.of_Z_spec, Z.mod_small
    by (change Uint63Axioms.wB with (2 ^ 63); lia).
  destruct (- z) as [|p|p] eqn:Ep; [lia| |lia].
  change (binary_normalize FloatOps.prec FloatOps.emax (Zpos p) 0 false)
    with (binary_round 53 1024 false p 0).
  assert (HSC : SC = 2200) by reflexivity.
  destruct (round_spec p 0 ltac:(lia)) as [Hn Hv].
  { simpl. assert (2 ^ (0 + SC) * 2 ^ 1000 = 2 ^ (SC + 1000))
      by (rewrite <- Z.pow_add_r by lia; f_equal; lia).
    assert (Zpos p < 2 ^ 1000) by (transitivity (2 ^ 32); [lia | apply Z.pow_lt_mono_r; lia]).
    assert (0 < 2 ^ (0 + SC)) by (apply Z.pow_pos_nonneg; lia). nia. }
  assert (Hpos : 2 ^ SC <= zval (binary_round 53 1024 false p 0)).
  { rewrite Hv. apply RG_ge_unit. rewrite Z.add_0_l.
    assert (0 < 2 ^ SC) by (apply Z.pow_pos_nonneg; lia). nia. }
  assert (0 < 2 ^ SC) by (apply Z.pow_pos_nonneg; lia).
  destruct (binary_round 53 1024 false p 0) as [s| s| |[|] m e];
    try contradiction; try reflexivity.
Qed.

Lemma compute_one_aqi_some_bracket (v : list float) (c : float) (a : Z) :
  length v = 7%nat -> compute_one_aqi c v = Some a ->
  exists i, scan 8 c v 0 = Some i /\ (1 <= i <= 6)%nat.
Proof.
  intros Hlen H. destruct (scan_some v c Hlen) as [i Hi].
  exists i. split; [exact Hi|].
  unfold compute_one_aqi in H. rewrite Hi in H. cbv [mbind option_bind] in H.
  destruct i as [|[|[|[|[|[|[|i]]]]]]]; simpl in H; try discriminate; lia.
Qed.

Lemma table_top (tbl : list float) (i : nat) : tbl = PM02 \/ tbl = PM10 ->
  (i <= 6)%nat -> zv (nth i tbl 0%float) <= zv (nth 6 tbl 0%float).
Proof.
  intros [-> | ->] Hi; destruct i as [|[|[|[|[|[|[|i]]]]]]]; try lia;
    apply Z.leb_le; vm_compute; reflexivity.
Qed.

Lemma compute_one_aqi_range (tbl : list float) (datum : float) :
  tbl = PM02 \/ tbl = PM10 ->
  is_Some (compute_one_aqi datum tbl) <->
  (0 <=? datum)%float = true /\ (datum <? nth 6 tbl 0%float)%float = true.
Proof.
  intros Htbl.
  assert (Ht : table_checks tbl = true) by (destruct Htbl as [-> | ->]; vm_compute; reflexivity).
  destruct (table_facts tbl Ht) as (Hlen & Hz & Hv & _ & _).
  assert (H0 : nth 0 tbl 0%float = 0%float) by (destruct Htbl as [-> | ->]; reflexivity).
  split.
  - intros [a Ha].
    destruct (compute_one_aqi_some_bracket tbl datum a Hlen Ha) as (i & Hi & Hi6).
    apply scan_selects in Hi as (_ & Hbelow & Habove); [|exact Hlen].
    assert (Hd0 : (0 <=? datum)%float = true).
    { rewrite <- H0. apply (Hbelow 0%nat); [lia|apply lookup_nth; lia]. }
    split; [exact Hd0|].
    specialize (Habove (nth i tbl 0%float) (lookup_nth tbl i ltac:(lia))).
    destruct (Hv i ltac:(lia)) as [Ni _]. destruct (Hv 6%nat ltac:(lia)) as [N6 _].
    pose proof (nonneg_of_not_le datum _ Hd0 Habove Ni) as Nd.
    rewrite leb_zv in Habove by assumption. apply Z.leb_gt in Habove.
    rewrite ltb_zv by assumption. apply Z.ltb_lt.
    pose proof (table_top tbl i Htbl ltac:(lia)). lia.
  - intros [Hd0 Hd6].
    pose proof (range_nonneg datum _ Hd0 Hd6) as Nd.
    destruct (Hv 6%nat ltac:(lia)) as [N6 _].
    rewrite ltb_zv in Hd6 by assumption. apply Z.ltb_lt in Hd6.
    destruct (bracket_of tbl datum Ht Nd Hd6) as (i & Hi & Hs & _).
    rewrite (compute_one_aqi_in_bracket tbl datum i Hlen Hi Hs). eexists. reflexivity.
Qed.

Lemma compute_one_aqi_below_zero (tbl : list float) (datum : float) :
  tbl = PM02 \/ tbl = PM10 -> (0 <=? datum)%float = false ->
  scan 8 datum tbl 0 = Some 0%nat /\ compute_one_aqi datum tbl = None.
Proof.
  intros [-> | ->] Hd; unfold PM02, PM10;
    rewrite scan_unfold, Hd; split; try reflexivity;
    unfold compute_one_aqi; rewrite scan_unfold, Hd; reflexivity.
Qed.

Lemma compute_aqi_negative (data : AirGradientData) :
  (- 2 ^ 31 <= pm02 data < 0) \/ (- 2 ^ 31 <= pm10 data < 0) -> compute_aqi data = None.
Proof.
  intros H. unfold compute_aqi. cbv [mbind option_bind].
  destruct H as [H | H].
  - destruct (compute_one_aqi_below_zero PM02 (i32_as_f64 (pm02 data)) (or_introl eq_refl)
                (i32_as_f64_neg _ H)) as [_ ->].
    reflexivity.
  - destruct (compute_one_aqi (i32_as_f64 (pm02 data)) PM02); [|reflexivity].
    destruct (compute_one_aqi_below_zero PM10 (i32_as_f64 (pm10 data)) (or_intror eq_refl)
                (i32_as_f64_neg _ H)) as [_ ->].
    reflexivity.
Qed.

(** ** C10 *)

(** C10: [compute_one_aqi] returns a value (does not panic) exactly when
    [0.0 <= datum < vector[6]], on the PM2.5 and on the PM10 table; a
    negative or NaN [datum] leaves the scan at [i = 0] and the function
    panics on [i - 1] (-1.0 and NaN are examples). A reading whose [pm02] or
    [pm10] is a negative [i32] makes [compute_aqi] panic, and the pass of the
    poll loop that fetched it ends in a panic rather than in the
    print-and-disconnect path of an [Err]. *)
Theorem compute_one_aqi_panics_outside_range :
  (forall tbl datum, tbl = PM02 \/ tbl = PM10 ->
     is_Some (compute_one_aqi datum tbl) <->
     (0 <=? datum)%float = true /\ (datum <? nth 6 tbl 0%float)%float = true) /\
  (forall tbl datum, tbl = PM02 \/ tbl = PM10 -> (0 <=? datum)%float = false ->
     scan 8 datum tbl 0 = Some 0%nat /\ compute_one_aqi datum tbl = None) /\
  compute_one_aqi (-1.0)%float PM02 = None /\
  compute_one_aqi nan PM10 = None /\
  (forall data, (- 2 ^ 31 <= pm02 data < 0) \/ (- 2 ^ 31 <= pm10 data < 0) ->
     compute_aqi data = None) /\
  (forall request_url s data, sensor s = Some data ->
     (- 2 ^ 31 <= pm02 data < 0) \/ (- 2 ^ 31 <= pm10 data < 0) ->
     fst (loop_body request_url s) = Panic).
Proof.
  split; [exact compute_one_aqi_range|].
  split; [exact compute_one_aqi_below_zero|].
  split; [vm_compute; reflexivity|].
  split; [vm_compute; reflexivity|].
  split; [exact compute_aqi_negative|].
  intros request_url s data Hs Hneg.
  unfold loop_body, do_stuff. cbv [mbind M_bind]. unfold fetch_reading. rewrite Hs.
  unfold unwrap. rewrite (compute_aqi_negative data Hneg). reflexivity.
Qed.

(** ** C6 *)

(** C6: on the PM2.5 and on the PM10 table, [compute_one_aqi] is
    non-decreasing on the breakpoint range: for all binary64 concentrations
    [c1 <= c2] with [0.0 <= c1] and [c2 < vector[6]], both calls return a
    value and the value for [c1] is at most the value for [c2]. *)
Theorem compute_one_aqi_monotone (tbl : list float) (c1 c2 : float) :
  tbl = PM02 \/ tbl = PM10 ->
  (0 <=? c1)%float = true -> (c1 <=? c2)%float = true ->
  (c2 <? nth 6 tbl 0%float)%float = true ->
  exists a1 a2, compute_one_aqi c1 tbl = Some a1 /\ compute_one_aqi c2 tbl = Some a2 /\
    a1 <= a2.
Proof.
  intros Htbl. apply monotone_table.
  destruct Htbl as [-> | ->]; vm_compute; reflexivity.
Qed.

Lemma compute_one_aqi_monotone_witness :
  (PM02 = PM02 \/ PM02 = PM10) /\ (0 <=? 9.5)%float = true /\ (9.5 <=? 40.0)%float = true /\
  (40.0 <? nth 6 PM02 0%float)%float = true /\
  exists a1 a2, compute_one_aqi 9.5 PM02 = Some a1 /\ compute_one_aqi 40.0 PM02 = Some a2 /\
    a1 <= a2.
Proof.
  split; [left; reflexivity|]. split; [reflexivity|]. split; [reflexivity|].
  split; [reflexivity|].
  apply (compute_one_aqi_monotone PM02 9.5 40.0); [left; reflexivity|reflexivity..].
Defined.

(** ** The writer *)

Lemma connect_result (s : State) :
  connect s =
    match client (influx s) with
    | Some _ => (Ok tt, s)
    | None =>
        let c := cfg (influx s) in
        if url_parses s (url c) then
          (Ok tt, set_client (Some (config_client c))
                    (emit (ClientNew (url c) (org c) (token c)) s))
        else (Panic, emit (ClientNew (url c) (org c) (token c)) s)
    end.
Proof. reflexivity. Qed.

Lemma connect_keeps (s : State) :
  cfg (influx (snd (connect s))) = cfg (influx s) /\
  clock (snd (connect s)) = clock s /\
  db_up (snd (connect s)) = db_up s /\
  sensor (snd (connect s)) = sensor s /\
  url_parses (snd (connect s)) = url_parses s.
Proof.
  rewrite connect_result. destruct (client (influx s)); simpl; [repeat split|].
  destruct (url_parses s (url (cfg (influx s)))); repeat split.
Qed.

Lemma connect_ok (s : State) :
  connects s = true ->
  fst (connect s) = Ok tt /\ is_Some (client (influx (snd (connect s)))).
Proof.
  unfold connects. rewrite connect_result.
  destruct (client (influx s)) as [cl|] eqn:E; intros H; simpl.
  - rewrite E. split; [reflexivity | eexists; reflexivity].
  - rewrite H. split; [reflexivity | eexists; reflexivity].
Qed.

Lemma connect_panics (s : State) :
  connects s = false ->
  let c := cfg (influx s) in
  client (influx s) = None /\
  connect s = (Panic, emit (ClientNew (url c) (org c) (token c)) s).
Proof.
  unfold connects. rewrite connect_result.
  destruct (client (influx s)); intros H; [discriminate|].
  split; [reflexivity|]. simpl. rewrite H. reflexivity.
Qed.

Lemma make_point_fields (c : InfluxSettings) data aqi t :
  size (dp_fields (make_point c data aqi t)) <> 0%nat.
Proof.
  unfold make_point.
  assert (Hf : forall ts p, dp_fields (foldl (λ p tag, dp_tag (key tag) (val tag) p) p ts)
                            = dp_fields p).
  { induction ts as [|tg ts IH]; intros p; simpl; [reflexivity|]. rewrite IH. reflexivity. }
  rewrite Hf. simpl. apply map_size_non_empty_iff, insert_non_empty.
Qed.

(** [write_point] from a state where [connect] succeeds: after it, the
    clock is read; with a clock accepted by [Utc::now] and
    [timestamp_nanos_opt], the point is built and written once. *)
Lemma write_point_after_connect (s : State) data aqi :
  connects s = true ->
  exists cl,
    client (influx (snd (connect s))) = Some cl /\
    write_point data aqi s =
      if timestamp_ok (clock s) then
        (if db_up s then Ok tt else Err WriteError,
         emit (DbWrite cl (bucket (cfg (influx s)))
                 [make_point (cfg (influx s)) data aqi (clock s)]) (snd (connect s)))
      else (Panic, snd (connect s)).
Proof.
  intros Hc. destruct (connect_keeps s) as (Hcf & Ht & Hd & _ & _).
  destruct (connect_ok s Hc) as [Ho [cl Hcl]].
  exists cl. split; [exact Hcl|].
  unfold write_point. cbv [mbind M_bind].
  destruct (connect s) as [o s1] eqn:Econ. simpl in Ho, Hcf, Ht, Hd, Hcl |- *. subst o.
  unfold get, unwrap. rewrite Hcl.
  cbv [mret M_ret]. unfold now_nanos, timestamp_ok. rewrite Ht.
  destruct (Z.ltb_spec (clock s) 0) as [Hneg|Hnn].
  { replace (0 <=? clock s) with false by (symmetry; apply Z.leb_gt; lia). reflexivity. }
  replace (0 <=? clock s) with true by (symmetry; apply Z.leb_le; lia). simpl.
  destruct (i64_in_range (clock s)); [|reflexivity].
  unfold lift_result, dp_build.
  destruct (Nat.eqb_spec (size (dp_fields (make_point (cfg (influx s1)) data aqi (clock s))))
              0) as [Hz|_].
  { exfalso. eapply make_point_fields. exact Hz. }
  unfold client_write. cbv [mret M_ret]. rewrite Hcf, Hd. destruct (db_up s); reflexivity.
Qed.

Lemma write_point_run (s : State) data aqi :
  connects s = true -> timestamp_ok (clock s) = true ->
  exists cl,
    client (influx (snd (connect s))) = Some cl /\
    write_point data aqi s =
      (if db_up s then Ok tt else Err WriteError,
       emit (DbWrite cl (bucket (cfg (influx s)))
               [make_point (cfg (influx s)) data aqi (clock s)]) (snd (connect s))).
Proof.
  intros Hc Hclk. destruct (write_point_after_connect s data aqi Hc) as (cl & Hcl & ->).
  rewrite Hclk. exists cl. split; [exact Hcl | reflexivity].
Qed.

Lemma write_point_connect_panic (s : State) data aqi :
  connects s = false -> write_point data aqi s = connect s.
Proof.
  intros Hc. destruct (connect_panics s Hc) as [_ Hcon].
  unfold write_point. cbv [mbind M_bind]. rewrite Hcon. reflexivity.
Qed.

Lemma write_point_events_prefix (s : State) data aqi :
  exists rest, events (snd (write_point data aqi s)) = events (snd (connect s)) ++ rest.
Proof.
  destruct (connects s) eqn:Hc.
  - destruct (write_point_after_connect s data aqi Hc) as (cl & _ & ->).
    destruct (timestamp_ok (clock s)); [|exists []; symmetry; apply app_nil_r].
    eexists. destruct (db_up s); reflexivity.
  - rewrite write_point_connect_panic by exact Hc. exists []. symmetry; apply app_nil_r.
Qed.

(** C7: a [connect] that succeeds leaves a writer on which a second
    [connect] is a no-op (it returns [Ok] and constructs no new handle); on
    a connected writer [connect] changes nothing; after [disconnect] the
    writer holds no client, and the next [write_point] calls [Client::new]
    with the configured url, org and token before anything else. *)
Theorem connect_idempotent_disconnect_resets :
  (forall s s1, connect s = (Ok tt, s1) -> connect s1 = (Ok tt, s1)) /\
  (forall s cl, client (influx s) = Some cl -> connect s = (Ok tt, s)) /\
  (forall s, client (influx (snd (disconnect s))) = None) /\
  (forall s data aqi,
     let c := cfg (influx s) in
     exists rest,
       events (snd (write_point data aqi (snd (disconnect s)))) =
       events s ++ ClientNew (url c) (org c) (token c) :: rest).
Proof.
  split.
  { intros s s1 H. rewrite connect_result in H.
    destruct (client (influx s)) as [cl|] eqn:E.
    - injection H as <-. rewrite connect_result, E. reflexivity.
    - cbv zeta in H. destruct (url_parses s (url (cfg (influx s)))); [|discriminate].
      injection H as <-. reflexivity. }
  split; [intros s cl H; rewrite connect_result, H; reflexivity|].
  split; [reflexivity|].
  intros s data aqi c.
  destruct (write_point_events_prefix (snd (disconnect s)) data aqi) as [rest ->].
  rewrite connect_result. simpl.
  subst c. destruct (url_parses s (url (cfg (influx s))));
    exists rest; simpl; rewrite <- ?app_assoc; reflexivity.
Qed.

(** ** C4 *)

(** C4 (counterexample): writing cannot be disabled: with the sample
    configuration, [connect] on a new writer constructs a client handle, and
    [write_point] constructs one and issues a write to the database. *)
Lemma writer_cannot_be_disabled :
  events (snd (connect (sample_state (sample_settings []) true None))) =
    [ClientNew "http://influx.local:8086" "home" "s3cr3t"] /\
  exists cl p,
    events (snd (write_point (reading_pm 9 154) 100
                   (sample_state (sample_settings []) true None))) =
      [ClientNew "http://influx.local:8086" "home" "s3cr3t"; DbWrite cl "air" [p]].
Proof.
  split; [reflexivity|].
  destruct (write_point_run (sample_state (sample_settings []) true None)
              (reading_pm 9 154) 100 eq_refl eq_refl) as (cl & _ & ->).
  do 2 eexists. reflexivity.
Qed.

(** C4 (amended): [InfluxSettings] has no field that disables writing. For
    every configuration, [connect] on a writer that holds no client calls
    [Client::new(url, org, token)], which installs a client when the url
    parses and panics otherwise. [write_point] always connects first; when
    [connect] succeeds and the clock is accepted ([timestamp_ok]) it issues
    exactly one write of one point to the configured bucket, and otherwise
    it panics before writing. *)
Theorem writer_always_connects_and_writes :
  (forall s, client (influx s) = None ->
     let c := cfg (influx s) in
     connect s =
       if url_parses s (url c) then
         (Ok tt, set_client (Some {| client_url := url c; client_org := org c;
                                     client_token := token c |})
                   (emit (ClientNew (url c) (org c) (token c)) s))
       else (Panic, emit (ClientNew (url c) (org c) (token c)) s)) /\
  (forall s data aqi, connects s = true -> timestamp_ok (clock s) = true ->
     let c := cfg (influx s) in
     exists cl,
       client (influx (snd (connect s))) = Some cl /\
       events (snd (write_point data aqi s)) =
         events (snd (connect s)) ++ [DbWrite cl (bucket c) [make_point c data aqi (clock s)]]) /\
  (forall s data aqi, connects s = false \/ timestamp_ok (clock s) = false ->
     write_point data aqi s = (Panic, snd (connect s))).
Proof.
  split; [intros s H c; rewrite connect_result, H; reflexivity|].
  split.
  - intros s data aqi Hc Hclk c.
    destruct (write_point_run s data aqi Hc Hclk) as (cl & Hcl & ->).
    exists cl. split; [exact Hcl | reflexivity].
  - intros s data aqi H.
    destruct (connects s) eqn:Hc.
    + destruct H as [H|H]; [discriminate|].
      destruct (write_point_after_connect s data aqi Hc) as (cl & _ & ->). rewrite H. reflexivity.
    + rewrite write_point_connect_panic by exact Hc.
      destruct (connect_panics s Hc) as [_ ->]. reflexivity.
Qed.

(** ** C8 *)

(** C8: when [write_point] reaches the database write ([connect] succeeds
    and the clock is accepted) and the database rejects it, [write_point]
    returns the error and the writer keeps the client it wrote with (an
    already connected writer keeps its handle); the poll loop disconnects
    the writer on any error of [do_stuff], so the writer it carries into the
    next cycle holds no client and its next [connect] calls [Client::new]
    again, which installs a fresh handle when the url parses. *)
Theorem write_failure_propagates_loop_disconnects :
  (forall s data aqi,
     db_up s = false -> connects s = true -> timestamp_ok (clock s) = true ->
     fst (write_point data aqi s) = Err WriteError /\
     client (influx (snd (write_point data aqi s))) = client (influx (snd (connect s))) /\
     is_Some (client (influx (snd (write_point data aqi s)))) /\
     (forall cl0, client (influx s) = Some cl0 ->
        client (influx (snd (write_point data aqi s))) = Some cl0)) /\
  (forall request_url s e s',
     do_stuff request_url s = (Err e, s') ->
     loop_body request_url s = (Ok tt, set_client None s')) /\
  (forall request_url s data aqi,
     sensor s = Some data -> compute_aqi data = Some aqi ->
     db_up s = false -> connects s = true -> timestamp_ok (clock s) = true ->
     fst (loop_body request_url s) = Ok tt /\
     client (influx (snd (loop_body request_url s))) = None /\
     (forall s2, influx s2 = influx (snd (loop_body request_url s)) ->
        let c := cfg (influx s2) in
        (exists o s3, connect s2 = (o, s3) /\
           events s3 = events s2 ++ [ClientNew (url c) (org c) (token c)]) /\
        (url_parses s2 (url c) = true ->
           fst (connect s2) = Ok tt /\
           client (influx (snd (connect s2))) = Some (config_client c)))).
Proof.
  split.
  { intros s data aqi Hdb Hc Hclk.
    destruct (write_point_run s data aqi Hc Hclk) as (cl & Hcl & ->).
    rewrite Hdb. simpl. rewrite Hcl. repeat split; [eexists; reflexivity|].
    intros cl0 H0. rewrite connect_result, H0 in Hcl. simpl in Hcl. congruence. }
  split.
  { intros request_url s e s' H. unfold loop_body. rewrite H. reflexivity. }
  intros request_url s data aqi Hsens Haqi Hdb Hc Hclk.
  assert (Hdo : exists s', do_stuff request_url s = (Err WriteError, s')).
  { unfold do_stuff. cbv [mbind M_bind]. unfold fetch_reading. rewrite Hsens.
    unfold unwrap. rewrite Haqi. cbv [mret M_ret].
    set (s1 := emit (HttpGet request_url) s).
    assert (Hc1 : connects s1 = true) by exact Hc.
    assert (Hclk1 : timestamp_ok (clock s1) = true) by exact Hclk.
    destruct (write_point_run s1 data aqi Hc1 Hclk1) as (cl & _ & ->).
    simpl. rewrite Hdb. eexists. reflexivity. }
  destruct Hdo as [s' Hdo].
  unfold loop_body. rewrite Hdo. simpl. split; [reflexivity|]. split; [reflexivity|].
  intros s2 Hs2. cbv zeta.
  assert (Hn : client (influx s2) = None) by (rewrite Hs2; reflexivity).
  rewrite connect_result, Hn. cbv zeta.
  destruct (url_parses s2 (url (cfg (influx s2)))); split.
  - do 2 eexists; split; reflexivity.
  - intros _. split; reflexivity.
  - do 2 eexists; split; reflexivity.
  - discriminate.
Qed.

(** ** C9 *)







(** ** C5 *)

Lemma cycle_starts_step (ds : list Z) (iv : Interval) (t : Z) (n : nat) :
  (S n < length ds)%nat ->
  exists st d,
    cycle_starts iv t ds !! n = Some st /\ ds !! n = Some d /\
    cycle_starts iv t ds !! S n =
      Some (Z.max (st + d) (deadline iv + Z.of_nat n * period iv)).
Proof.
  revert iv t n. induction ds as [|d ds IH]; intros iv t n Hn; simpl in Hn; [lia|].
  destruct n as [|n].
  - destruct ds as [|d' ds]; simpl in Hn; [lia|].
    exists t, d. simpl. repeat split. f_equal. lia.
  - destruct (IH {| deadline := deadline iv + period iv; period := period iv |}
                 (Z.max (t + d) (deadline iv)) n ltac:(lia)) as (st & d1 & H1 & H2 & H3).
    exists st, d1. simpl. rewrite H1, H2, H3. repeat split. simpl. do 2 f_equal. lia.
Qed.

(** C5 (counterexample): with a delay of 10 and passes that take 1, 35, 1
    and 1 time units, the passes start at 0, 1, 36 and 37: the second pass
    starts right after the first (the first tick completes at once) and the
    passes after the long one start with no delay, catching up with the
    fixed-rate schedule; a fixed delay measured from the end of each pass
    would start them at 0, 11, 56 and 67. *)
Lemma poll_schedule_catches_up :
  poll_schedule 0 10 [1; 35; 1; 1] = [0; 1; 36; 37].
Proof. reflexivity. Qed.

(** C5 (amended): the loop is paced at a fixed rate: with the interval
    created at [t0] and period [delay], pass [n + 1] starts when pass [n]
    ends or at [t0 + n * delay], whichever is later; a pass that overruns
    is followed at once by catch-up passes until the schedule is met again. *)
Theorem poll_schedule_fixed_rate (t0 delay : Z) (ds : list Z) (n : nat) :
  (S n < length ds)%nat ->
  exists st d,
    poll_schedule t0 delay ds !! n = Some st /\ ds !! n = Some d /\
    poll_schedule t0 delay ds !! S n =
      Some (Z.max (st + d) (t0 + Z.of_nat n * delay)).
Proof. intros Hn. apply (cycle_starts_step ds (interval t0 delay) t0 n Hn). Qed.

Lemma poll_schedule_fixed_rate_witness :
  (2 < length [1; 35; 1; 1])%nat /\
  exists st d,
    poll_schedule 0 10 [1; 35; 1; 1] !! 1%nat = Some st /\ [1; 35; 1; 1] !! 1%nat = Some d /\
    poll_schedule 0 10 [1; 35; 1; 1] !! 2%nat = Some (Z.max (st + d) (0 + Z.of_nat 1 * 10)).
Proof. split; [simpl; lia | apply (poll_schedule_fixed_rate 0 10 [1; 35; 1; 1] 1); simpl; lia]. Defined.


(* ------------------------------------------------------------------ *)
(** * Further properties of the program

    The range of [compute_aqi], the results of [write_point] and
    [do_stuff], and the runs of [main]. *)

Lemma bracket_top_bound (tbl : list float) (i : nat) : tbl = PM02 \/ tbl = PM10 ->
  (1 <= i <= 6)%nat -> f64_as_u32 (bracket_value tbl i (nth i tbl 0%float)) <= 500.
Proof.
  intros [-> | ->] Hi; destruct i as [|[|[|[|[|[|[|i]]]]]]]; try lia;
    apply Z.leb_le; vm_compute; reflexivity.
Qed.

Lemma compute_one_aqi_le_500 (tbl : list float) (datum : float) (a : Z) :
  tbl = PM02 \/ tbl = PM10 -> compute_one_aqi datum tbl = Some a -> a <= 500.
Proof.
  intros Htbl H.
  assert (Ht : table_checks tbl = true) by (destruct Htbl as [-> | ->]; vm_compute; reflexivity).
  destruct (table_facts tbl Ht) as (Hlen & Hz & Hv & Hs & _).
  destruct (proj1 (compute_one_aqi_range tbl datum Htbl) (mk_is_Some _ _ H)) as [Hd0 Hd6].
  pose proof (range_nonneg datum _ Hd0 Hd6) as Nd.
  destruct (Hv 6%nat ltac:(lia)) as [N6 B6].
  rewrite ltb_zv in Hd6 by assumption. apply Z.ltb_lt in Hd6.
  destruct (bracket_of tbl datum Ht Nd Hd6) as (i & Hi & Hsc & Hb & Ha).
  rewrite (compute_one_aqi_in_bracket tbl datum i Hlen Hi Hsc) in H.
  injection H as <-.
  destruct (Hs i Hi) as (HK & _ & HA & _).
  pose proof (zval_nonneg _ HK). pose proof (zval_nonneg _ HA).
  destruct (Hv i ltac:(lia)) as [Ni Bi].
  assert (W := Hb (i - 1)%nat ltac:(lia)).
  transitivity (f64_as_u32 (bracket_value tbl i (nth i tbl 0%float))).
  - rewrite !bracket_eval by (try assumption; lia).
    apply Gz_mono; unfold zv in *; lia.
  - apply bracket_top_bound; assumption.
Qed.

Lemma i32_as_f64_pos (z : Z) : 0 <= z < 2 ^ 31 ->
  nonneg_sf (Prim2SF (i32_as_f64 z)) /\ zv (i32_as_f64 z) = z * 2 ^ SC.
Proof.
  intros Hz. unfold i32_as_f64, zv.
  destruct (Z.ltb_spec z 0) as [|_]; [lia|].
  rewrite FloatAxioms.of_uint63_spec.
  rewrite Uint63.of_Z_spec, Z.mod_small
    by (change Uint63Axioms.wB with (2 ^ 63); lia).
  change (binary_normalize FloatOps.prec FloatOps.emax z 0 false)
    with (binary_normalize 53 1024 z 0 false).
  assert (HSC : SC = 2200) by reflexivity.
  assert (HP : 0 < 2 ^ SC) by (apply Z.pow_pos_nonneg; lia).
  destruct (normalize_spec z 0 ltac:(lia) ltac:(lia)) as [Hn Hv].
  { rewrite Z.add_0_l.
    assert (2 ^ SC * 2 ^ 1000 = 2 ^ (SC + 1000)) by (rewrite <- Z.pow_add_r by lia; reflexivity).
    assert (z < 2 ^ 1000) by (transitivity (2 ^ 31); [lia | apply Z.pow_lt_mono_r; lia]).
    nia. }
  split; [exact Hn|]. rewrite Hv, Z.add_0_l.
  apply RG_exact; [lia|]. unfold grid.
  assert (Z.log2 (z * 2 ^ SC) <= 31 + SC).
  { rewrite <- (Z.log2_pow2 (31 + SC)) by lia. apply Z.log2_le_mono.
    rewrite Z.pow_add_r by lia. nia. }
  lia.
Qed.

Lemma compute_one_aqi_i32 (tbl : list float) (z n : Z) :
  (tbl = PM02 /\ n = 325) \/ (tbl = PM10 /\ n = 603) -> - 2 ^ 31 <= z < 2 ^ 31 ->
  is_Some (compute_one_aqi (i32_as_f64 z) tbl) <-> 0 <= z <= n.
Proof.
  intros Htn Hz.
  assert (Htbl : tbl = PM02 \/ tbl = PM10) by (destruct Htn as [[-> _]|[-> _]]; auto).
  rewrite (compute_one_aqi_range tbl _ Htbl).
  destruct (Z.ltb_spec z 0) as [Hneg|Hnn].
  { rewrite (i32_as_f64_neg z ltac:(lia)). split; [intros [H _]; discriminate | lia]. }
  destruct (i32_as_f64_pos z ltac:(lia)) as [Nz Vz].
  assert (HSC : SC = 2200) by reflexivity.
  assert (HP : 0 < 2 ^ SC) by (apply Z.pow_pos_nonneg; lia).
  assert (N6 : nonneg_sf (Prim2SF (nth 6 tbl 0%float)))
    by (destruct Htbl as [-> | ->]; apply nonneg_sfb_sound; vm_compute; reflexivity).
  assert (Hb : n * 2 ^ SC < zv (nth 6 tbl 0%float) <= (n + 1) * 2 ^ SC).
  { destruct Htn as [[-> ->]|[-> ->]]; (split; [apply Z.ltb_lt | apply Z.leb_le]); vm_compute; reflexivity. }
  rewrite leb_zv by (first [exact I | assumption]).
  rewrite ltb_zv by assumption. rewrite Vz.
  change (zv 0%float) with 0.
  set (P := 2 ^ SC) in *. set (X := zv (nth 6 tbl 0%float)) in *.
  rewrite Z.leb_le, Z.ltb_lt. split.
  - intros [_ H]. split; [lia|].
    destruct (Z.le_gt_cases z n) as [|Hg]; [assumption|]. nia.
  - intros [_ H]. split; nia.
Qed.

Lemma compute_aqi_some (data : AirGradientData) :
  is_Some (compute_aqi data) <->
  is_Some (compute_one_aqi (i32_as_f64 (pm02 data)) PM02) /\
  is_Some (compute_one_aqi (i32_as_f64 (pm10 data)) PM10).
Proof.
  unfold compute_aqi. cbv [mbind option_bind].
  destruct (compute_one_aqi (i32_as_f64 (pm02 data)) PM02);
  destruct (compute_one_aqi (i32_as_f64 (pm10 data)) PM10);
  rewrite ?is_Some_alt; simpl; tauto.
Qed.

(** X1: the AQI that [compute_aqi] returns, when it returns one, is
    between 0 and 500. *)
Theorem compute_aqi_bounded (data : AirGradientData) (v : Z) :
  compute_aqi data = Some v -> 0 <= v <= 500.
Proof.
  unfold compute_aqi. cbv [mbind option_bind].
  destruct (compute_one_aqi (i32_as_f64 (pm02 data)) PM02) as [a|] eqn:Ea; [|discriminate].
  destruct (compute_one_aqi (i32_as_f64 (pm10 data)) PM10) as [b|] eqn:Eb; [|discriminate].
  intros H. injection H as <-.
  pose proof (compute_one_aqi_le_500 PM02 _ a (or_introl eq_refl) Ea).
  pose proof (compute_one_aqi_le_500 PM10 _ b (or_intror eq_refl) Eb).
  lia.
Qed.

(** X2: for [i32] readings, [compute_aqi] returns a value (does not panic)
    exactly when [0 <= pm02 <= 325] and [0 <= pm10 <= 603]: the conversion
    [as f64] is exact, and [325] and [603] are the largest integers below the
    top thresholds [325.4] and [604.0]. *)
Theorem compute_aqi_defined_iff (data : AirGradientData) :
  - 2 ^ 31 <= pm02 data < 2 ^ 31 -> - 2 ^ 31 <= pm10 data < 2 ^ 31 ->
  is_Some (compute_aqi data) <-> 0 <= pm02 data <= 325 /\ 0 <= pm10 data <= 603.
Proof.
  intros H2 H10. rewrite compute_aqi_some.
  rewrite (compute_one_aqi_i32 PM02 (pm02 data) 325 (or_introl (conj eq_refl eq_refl)) H2).
  rewrite (compute_one_aqi_i32 PM10 (pm10 data) 603 (or_intror (conj eq_refl eq_refl)) H10).
  reflexivity.
Qed.

(** X3: every threshold [vector[j]] below the top one is mapped to the AQI
    value [AQI[j]] exactly, on the PM2.5 and on the PM10 table. *)
Theorem compute_one_aqi_breakpoints (j : nat) : (j < 6)%nat ->
  compute_one_aqi (nth j PM02 0%float) PM02 = Some (nth j [0; 50; 100; 150; 200; 300] 0) /\
  compute_one_aqi (nth j PM10 0%float) PM10 = Some (nth j [0; 50; 100; 150; 200; 300] 0).
Proof.
  intros Hj. destruct j as [|[|[|[|[|[|j]]]]]]; try lia; split; vm_compute; reflexivity.
Qed.

Lemma do_stuff_unfold (u : string) (s : State) :
  do_stuff u s =
    match sensor s with
    | None => (Err FetchError, emit (HttpGet u) s)
    | Some d =>
        match compute_aqi d with
        | None => (Panic, emit (HttpGet u) s)
        | Some aqi => write_point d aqi (emit (HttpGet u) s)
        end
    end.
Proof.
  unfold do_stuff. cbv [mbind M_bind]. unfold fetch_reading.
  destruct (sensor s) as [d|]; [|reflexivity].
  unfold unwrap. destruct (compute_aqi d); reflexivity.
Qed.

Lemma write_point_result (s : State) data aqi :
  fst (write_point data aqi s) =
    if connects s then
      (if timestamp_ok (clock s) then (if db_up s then Ok tt else Err WriteError) else Panic)
    else Panic.
Proof.
  destruct (connects s) eqn:Hc.
  - destruct (write_point_after_connect s data aqi Hc) as (cl & _ & ->).
    destruct (timestamp_ok (clock s)); [destruct (db_up s)|]; reflexivity.
  - rewrite write_point_connect_panic by exact Hc.
    destruct (connect_panics s Hc) as [_ ->]. reflexivity.
Qed.

Lemma do_stuff_result (u : string) (s : State) :
  fst (do_stuff u s) =
    match sensor s with
    | None => Err FetchError
    | Some d =>
        match compute_aqi d with
        | None => Panic
        | Some _ =>
            if connects s then
              (if timestamp_ok (clock s) then (if db_up s then Ok tt else Err WriteError)
               else Panic)
            else Panic
        end
    end.
Proof.
  rewrite do_stuff_unfold. destruct (sensor s) as [d|]; [|reflexivity].
  destruct (compute_aqi d) as [aqi|]; [|reflexivity].
  rewrite write_point_result. reflexivity.
Qed.

Lemma loop_body_result (u : string) (s : State) :
  fst (loop_body u s) = match fst (do_stuff u s) with Panic => Panic | _ => Ok tt end.
Proof. unfold loop_body. destruct (do_stuff u s) as [[]]; reflexivity. Qed.

(** The writer's configuration and the url parser are never changed by a
    pass of the loop. *)
Lemma write_point_keeps (s : State) data aqi :
  cfg (influx (snd (write_point data aqi s))) = cfg (influx s) /\
  url_parses (snd (write_point data aqi s)) = url_parses s.
Proof.
  destruct (connect_keeps s) as (Hc & _ & _ & _ & Hu).
  destruct (connects s) eqn:Hcs.
  - destruct (write_point_after_connect s data aqi Hcs) as (cl & _ & ->).
    destruct (timestamp_ok (clock s)); [destruct (db_up s)|]; split; assumption.
  - rewrite write_point_connect_panic by exact Hcs. split; assumption.
Qed.

Lemma loop_body_keeps (u : string) (s : State) :
  cfg (influx (snd (loop_body u s))) = cfg (influx s) /\
  url_parses (snd (loop_body u s)) = url_parses s.
Proof.
  unfold loop_body. rewrite do_stuff_unfold.
  destruct (sensor s) as [d|]; [|split; reflexivity].
  destruct (compute_aqi d) as [aqi|]; [|split; reflexivity].
  destruct (write_point_keeps (emit (HttpGet u) s) d aqi) as [Hc Hu].
  destruct (write_point d aqi (emit (HttpGet u) s)) as [[] s2]; simpl in Hc, Hu |- *;
    split; assumption.
Qed.

(** The invariant of the writer in [main]: it keeps the configuration it
    was created with and holds no client or the one built from it. *)
Lemma connect_targets (c : InfluxSettings) (u : string) (s : State) :
  cfg (influx s) = c ->
  client (influx s) = None \/ client (influx s) = Some (config_client c) ->
  cfg (influx (snd (connect s))) = c /\
  (client (influx (snd (connect s))) = None \/
   client (influx (snd (connect s))) = Some (config_client c)) /\
  exists new, events (snd (connect s)) = events s ++ new /\ Forall (event_targets c u) new.
Proof.
  intros Hc Hcl. rewrite connect_result.
  destruct Hcl as [H | H]; rewrite H; simpl.
  - destruct (url_parses s (url (cfg (influx s)))); simpl.
    + rewrite Hc. split; [reflexivity|]. split; [right; reflexivity|].
      eexists; split; [reflexivity|]. repeat constructor.
    + split; [exact Hc|]. split; [left; exact H|].
      eexists; split; [reflexivity|]. rewrite Hc. repeat constructor.
  - split; [exact Hc|]. split; [right; exact H|].
    exists []. split; [symmetry; apply app_nil_r | constructor].
Qed.

Lemma write_point_targets (c : InfluxSettings) (u : string) (s : State) data aqi :
  cfg (influx s) = c ->
  client (influx s) = None \/ client (influx s) = Some (config_client c) ->
  let s' := snd (write_point data aqi s) in
  cfg (influx s') = c /\
  (client (influx s') = None \/ client (influx s') = Some (config_client c)) /\
  exists new, events s' = events s ++ new /\ Forall (event_targets c u) new.
Proof.
  intros Hc Hcl s'. subst s'.
  destruct (connect_targets c u s Hc Hcl) as (Hc2 & Hcl2 & new & Hev & Hnew).
  destruct (connects s) eqn:Hcs.
  2: { rewrite write_point_connect_panic by exact Hcs.
       split; [exact Hc2|]. split; [exact Hcl2|]. exists new. split; assumption. }
  destruct (write_point_after_connect s data aqi Hcs) as (cl & Hcl' & ->).
  destruct (timestamp_ok (clock s)).
  2: { split; [exact Hc2|]. split; [exact Hcl2|]. exists new. split; assumption. }
  assert (cl = config_client c) as ->.
  { destruct Hcl2 as [H|H]; rewrite H in Hcl'; congruence. }
  split; [exact Hc2|]. split; [right; assumption|].
  exists (new ++ [DbWrite (config_client c) (bucket (cfg (influx s)))
                   [make_point (cfg (influx s)) data aqi (clock s)]]).
  split.
  - destruct (db_up s); simpl; rewrite Hev, app_assoc; reflexivity.
  - apply Forall_app; split; [exact Hnew|]. repeat constructor. rewrite Hc. reflexivity.
Qed.

Lemma loop_body_targets (c : InfluxSettings) (u : string) (e : PassEnv) (s : State) :
  cfg (influx s) = c ->
  client (influx s) = None \/ client (influx s) = Some (config_client c) ->
  let s' := snd (loop_body u (set_env e s)) in
  cfg (influx s') = c /\
  (client (influx s') = None \/ client (influx s') = Some (config_client c)) /\
  exists new, events s' = events s ++ new /\ Forall (event_targets c u) new.
Proof.
  intros Hc Hcl s'. subst s'. unfold loop_body. rewrite do_stuff_unfold. simpl.
  destruct (env_sensor e) as [d|].
  2: { simpl. split; [exact Hc|]. split; [left; reflexivity|].
       eexists; split; [reflexivity|]. repeat constructor. }
  destruct (compute_aqi d) as [aqi|].
  2: { simpl. split; [exact Hc|]. split; [exact Hcl|].
       eexists; split; [reflexivity|]. repeat constructor. }
  set (s1 := emit (HttpGet u) (set_env e s)).
  assert (Hc1 : cfg (influx s1) = c) by exact Hc.
  assert (Hcl1 : client (influx s1) = None \/ client (influx s1) = Some (config_client c))
    by exact Hcl.
  assert (Hev1 : events s1 = events s ++ [HttpGet u]) by reflexivity.
  destruct (write_point_targets c u s1 d aqi Hc1 Hcl1) as (Hc2 & Hcl2 & new & Hev & Hnew).
  assert (Hall : Forall (event_targets c u) (HttpGet u :: new))
    by (constructor; [reflexivity | exact Hnew]).
  destruct (write_point d aqi s1) as [o s2]. cbn [snd] in Hc2, Hcl2, Hev.
  assert (Hev2 : events s2 = events s ++ HttpGet u :: new)
    by (rewrite Hev, Hev1, <- app_assoc; reflexivity).
  destruct o; simpl.
  - split; [exact Hc2|]. split; [exact Hcl2|]. eexists; split; [exact Hev2 | exact Hall].
  - split; [exact Hc2|]. split; [left; reflexivity|]. eexists; split; [exact Hev2 | exact Hall].
  - split; [exact Hc2|]. split; [exact Hcl2|]. eexists; split; [exact Hev2 | exact Hall].
Qed.

Lemma main_loop_targets (c : InfluxSettings) (u : string) (envs : list PassEnv) (s : State) :
  cfg (influx s) = c ->
  client (influx s) = None \/ client (influx s) = Some (config_client c) ->
  exists new, events (snd (main_loop u envs s)) = events s ++ new /\
    Forall (event_targets c u) new.
Proof.
  revert s. induction envs as [|e envs IH]; intros s Hc Hcl.
  { exists []. split; [symmetry; apply app_nil_r | constructor]. }
  simpl. destruct (loop_body_targets c u e s Hc Hcl) as (Hc' & Hcl' & new & Hev & Hnew).
  destruct (loop_body u (set_env e s)) as [o s'] eqn:E. simpl in Hc', Hcl', Hev.
  destruct o.
  3: { exists new. split; assumption. }
  all: destruct (IH s' Hc' Hcl') as (new' & Hev' & Hnew');
       exists (new ++ new'); split; [rewrite Hev', Hev, app_assoc; reflexivity|];
       apply Forall_app; split; assumption.
Qed.

Lemma main_run_setup (args : list string) (read_config : string -> option Settings)
    (envs : list PassEnv) (s : State) (st : Settings) :
  read_config (cfgpath args) = Some st ->
  let c := influxdb st in
  let s0 := emit (ClientNew (url c) (org c) (token c)) (set_influx (Influx_new c) s) in
  let s1 := set_client (Some (config_client c)) s0 in
  main_run args read_config envs s =
    Some (if url_parses s (url c) then
            (if Z.eqb (delaysecs (airgradient st)) 0 then (Panic, s1)
             else main_loop (request_url st) envs s1)
          else (Panic, s0)).
Proof.
  intros Hr c s0 s1. subst s1 s0 c. unfold main_run. rewrite Hr. cbv [mbind option_bind].
  rewrite connect_result. simpl.
  destruct (url_parses s (url (influxdb st))); [|reflexivity].
  destruct (delaysecs (airgradient st) =? 0); reflexivity.
Qed.

(** X4: once the configuration is read, every call [main] makes goes to
    the configured endpoints: every sensor request to
    [airgradient.url + "/measures/current"], every [Client::new] with the
    configured url, org and token, and every write to the configured bucket,
    with the client built from the configuration and exactly one point. *)
Theorem main_targets (args : list string) (read_config : string -> option Settings)
    (envs : list PassEnv) (s : State) (st : Settings) :
  read_config (cfgpath args) = Some st ->
  match main_run args read_config envs s with
  | Some (_, s') =>
      exists new, events s' = events s ++ new /\
        Forall (event_targets (influxdb st) (request_url st)) new
  | None => False
  end.
Proof.
  intros Hr. rewrite (main_run_setup args read_config envs s st Hr).
  set (c := influxdb st).
  set (s1 := set_client (Some (config_client c)) _).
  assert (H1 : Forall (event_targets c (request_url st)) [ClientNew (url c) (org c) (token c)])
    by (repeat constructor).
  destruct (url_parses s (url c)).
  2: { exists [ClientNew (url c) (org c) (token c)]. split; [reflexivity | exact H1]. }
  destruct (delaysecs (airgradient st) =? 0).
  - exists [ClientNew (url c) (org c) (token c)]. split; [reflexivity | exact H1].
  - destruct (main_loop_targets c (request_url st) envs s1 eq_refl (or_intror eq_refl))
      as (new & Hev & Hnew).
    destruct (main_loop (request_url st) envs s1) as [o s'] eqn:E. simpl in Hev.
    exists (ClientNew (url c) (org c) (token c) :: new). split.
    + rewrite Hev, <- app_assoc. reflexivity.
    + constructor; [repeat constructor | exact Hnew].
Qed.

Lemma loop_body_healthy (u : string) (e : PassEnv) (s : State) (cl : Client) (d : AirGradientData)
    (aqi : Z) :
  client (influx s) = Some cl -> env_sensor e = Some d -> compute_aqi d = Some aqi ->
  env_db_up e = true -> timestamp_ok (env_clock e) = true ->
  loop_body u (set_env e s) =
    (Ok tt, emit (DbWrite cl (bucket (cfg (influx s)))
                    [make_point (cfg (influx s)) d aqi (env_clock e)])
              (emit (HttpGet u) (set_env e s))).
Proof.
  intros Hcl Hs Ha Hdb Hclk. unfold loop_body. rewrite do_stuff_unfold. simpl.
  rewrite Hs, Ha.
  set (s1 := emit (HttpGet u) (set_env e s)).
  assert (Hclk1 : timestamp_ok (clock s1) = true) by exact Hclk.
  assert (Hcs : connects s1 = true) by (unfold connects; simpl; rewrite Hcl; reflexivity).
  destruct (write_point_run s1 d aqi Hcs Hclk1) as (cl' & Hcl' & ->).
  assert (Hc1 : connect s1 = (Ok tt, s1)) by (rewrite connect_result; simpl; rewrite Hcl; reflexivity).
  rewrite Hc1 in Hcl' |- *. simpl in Hcl'. rewrite Hcl in Hcl'. injection Hcl' as <-.
  simpl. rewrite Hdb. reflexivity.
Qed.

Lemma main_loop_healthy (u : string) (envs : list PassEnv) (s : State) (cl : Client) :
  client (influx s) = Some cl ->
  Forall (λ e, env_db_up e = true /\ timestamp_ok (env_clock e) = true /\
               exists d aqi, env_sensor e = Some d /\ compute_aqi d = Some aqi) envs ->
  exists s' ps,
    main_loop u envs s = (Ok tt, s') /\ length ps = length envs /\
    events s' = events s ++ concat (map (λ p, [HttpGet u; DbWrite cl (bucket (cfg (influx s))) [p]]) ps) /\
    influx s' = influx s.
Proof.
  revert s. induction envs as [|e envs IH]; intros s Hcl Hall.
  { exists s, []. split; [reflexivity|]. split; [reflexivity|].
    split; [symmetry; apply app_nil_r | reflexivity]. }
  inversion Hall as [|? ? (Hdb & Hclk & d & aqi & Hs & Ha) Hall']; subst.
  simpl. rewrite (loop_body_healthy u e s cl d aqi Hcl Hs Ha Hdb Hclk).
  set (s1 := emit _ _).
  destruct (IH s1 Hcl Hall') as (s' & ps & Hrun & Hlen & Hev & Hinf).
  exists s', (make_point (cfg (influx s)) d aqi (env_clock e) :: ps).
  split; [exact Hrun|]. split; [simpl; rewrite Hlen; reflexivity|].
  split; [|exact Hinf].
  rewrite Hev. simpl. rewrite <- !app_assoc. reflexivity.
Qed.

(** X5: when the configuration is read, its database url parses, the delay
    is not zero, and in every pass the sensor sends a reading that
    [compute_aqi] accepts, the clock is accepted ([timestamp_ok]: not before
    the epoch and within the range of [i64]) and the database accepts the
    write, [main] builds its client once, at start-up, and each pass makes
    one request to the sensor and then one write of one point with that
    same client. *)
Theorem main_healthy_run (args : list string) (read_config : string -> option Settings)
    (envs : list PassEnv) (s : State) (st : Settings) :
  read_config (cfgpath args) = Some st -> url_parses s (url (influxdb st)) = true ->
  delaysecs (airgradient st) <> 0 ->
  Forall (λ e, env_db_up e = true /\ timestamp_ok (env_clock e) = true /\
               exists d aqi, env_sensor e = Some d /\ compute_aqi d = Some aqi) envs ->
  let c := influxdb st in
  exists s' ps,
    main_run args read_config envs s = Some (Ok tt, s') /\ length ps = length envs /\
    events s' =
      events s ++ ClientNew (url c) (org c) (token c) ::
        concat (map (λ p, [HttpGet (request_url st);
                          DbWrite (config_client c) (bucket c) [p]]) ps).
Proof.
  intros Hr Hu Hd Hall c.
  rewrite (main_run_setup args read_config envs s st Hr), Hu.
  destruct (Z.eqb_spec (delaysecs (airgradient st)) 0) as [|_]; [contradiction|].
  set (s1 := set_client _ _).
  destruct (main_loop_healthy (request_url st) envs s1 (config_client c) eq_refl Hall)
    as (s' & ps & Hrun & Hlen & Hev & _).
  exists s', ps. rewrite Hrun. split; [reflexivity|]. split; [exact Hlen|].
  rewrite Hev. simpl. rewrite <- app_assoc. reflexivity.
Qed.

(** X6: when the database url of the configuration parses and
    [delaysecs = 0], [main] panics in [tokio::time::interval] right after
    building its client (the writer holds the client built from the
    configuration), before any request to the sensor. *)
Theorem main_zero_delay_panics (args : list string) (read_config : string -> option Settings)
    (envs : list PassEnv) (s : State) (st : Settings) :
  read_config (cfgpath args) = Some st -> url_parses s (url (influxdb st)) = true ->
  delaysecs (airgradient st) = 0 ->
  let c := influxdb st in
  exists s', main_run args read_config envs s = Some (Panic, s') /\
    client (influx s') = Some (config_client c) /\
    events s' = events s ++ [ClientNew (url c) (org c) (token c)].
Proof.
  intros Hr Hu Hd c. rewrite (main_run_setup args read_config envs s st Hr), Hu, Hd.
  eexists. split; [reflexivity|]. split; reflexivity.
Qed.

(** X7: when the configured database url parses, the loop of [main] stops
    (by a panic) exactly at a pass whose reading makes [compute_aqi] panic
    or whose clock is before the epoch or outside the range of [i64]; the
    errors of the sensor or the database never end it. *)
Theorem main_loop_outcome (u : string) (envs : list PassEnv) (s : State) :
  url_parses s (url (cfg (influx s))) = true ->
  fst (main_loop u envs s) = if existsb pass_panics envs then Panic else Ok tt.
Proof.
  revert s. induction envs as [|e envs IH]; intros s Hu; [reflexivity|].
  simpl. pose proof (loop_body_result u (set_env e s)) as Hl.
  rewrite do_stuff_result in Hl. simpl in Hl.
  assert (Hcs : connects (set_env e s) = true).
  { unfold connects. simpl. destruct (client (influx s)); [reflexivity | exact Hu]. }
  rewrite Hcs in Hl.
  destruct (loop_body_keeps u (set_env e s)) as [Hc' Hu'].
  destruct (loop_body u (set_env e s)) as [o s'] eqn:E. simpl in Hl, Hc', Hu'.
  assert (Hs' : url_parses s' (url (cfg (influx s'))) = true) by (rewrite Hc', Hu'; exact Hu).
  unfold pass_panics.
  destruct (env_sensor e) as [d|]; [destruct (compute_aqi d) as [aqi|]|];
    [destruct (timestamp_ok (env_clock e)); [destruct (env_db_up e)|] | |];
    subst o; simpl; try rewrite (IH s' Hs'); reflexivity.
Qed.

(** X8: the result of [do_stuff]: a fetch error when the sensor request
    fails; a panic when [compute_aqi] panics; otherwise a panic when the
    writer holds no client and its url does not parse ([Client::new]), then
    a panic when the clock is before the epoch or outside the range of
    [i64], then the write error or success. The state of the connection
    matters only through whether [connect] panics. *)
Theorem do_stuff_outcome (u : string) (s : State) :
  fst (do_stuff u s) =
    match sensor s with
    | None => Err FetchError
    | Some d =>
        match compute_aqi d with
        | None => Panic
        | Some _ =>
            if connects s then
              (if timestamp_ok (clock s) then (if db_up s then Ok tt else Err WriteError)
               else Panic)
            else Panic
        end
    end.
Proof. apply do_stuff_result. Qed.

(** X9: when the sensor request fails, [do_stuff] returns the fetch error
    after that one request; it does not connect the writer nor write. *)
Theorem do_stuff_fetch_error (u : string) (s : State) :
  sensor s = None -> do_stuff u s = (Err FetchError, emit (HttpGet u) s).
Proof. intros H. rewrite do_stuff_unfold, H. reflexivity. Qed.

(** X10: [write_point] succeeds exactly when [connect] succeeds (the writer
    holds a client or its url parses), the clock is not before the epoch
    and within the range of [i64], and the database accepts the write; it
    returns the write error when the database rejects it and panics in the
    other cases. The [build()?] on the point never fails. *)
Theorem write_point_outcome (s : State) data aqi :
  fst (write_point data aqi s) =
    (if connects s then
       (if timestamp_ok (clock s) then (if db_up s then Ok tt else Err WriteError) else Panic)
     else Panic) /\
  (forall c t, dp_build (make_point c data aqi t) = inr (make_point c data aqi t)).
Proof.
  split; [apply write_point_result|].
  intros c t. unfold dp_build.
  destruct (Nat.eqb_spec (size (dp_fields (make_point c data aqi t))) 0) as [Hz|_];
    [exfalso; eapply make_point_fields; exact Hz | reflexivity].
Qed.

(** X11: when [connect] succeeds and the clock is before the epoch or
    outside the range of [i64], [write_point] panics after connecting (the
    writer holds a client, built with [Client::new] if it had none) and
    before writing. *)
Theorem write_point_clock_panic (s : State) data aqi :
  connects s = true -> timestamp_ok (clock s) = false ->
  let c := cfg (influx s) in
  write_point data aqi s = (Panic, snd (connect s)) /\
  client (influx (snd (write_point data aqi s))) = Some (match client (influx s) with
                                                        | Some cl => cl
                                                        | None => config_client c
                                                        end) /\
  events (snd (write_point data aqi s)) =
    events s ++ match client (influx s) with
                | Some _ => []
                | None => [ClientNew (url c) (org c) (token c)]
                end.
Proof.
  intros Hcs Hclk c.
  assert (Hw : write_point data aqi s = (Panic, snd (connect s))).
  { destruct (write_point_after_connect s data aqi Hcs) as (cl & _ & ->).
    rewrite Hclk. reflexivity. }
  rewrite Hw. split; [reflexivity|]. rewrite connect_result.
  unfold connects in Hcs.
  destruct (client (influx s)) as [cl|] eqn:E; simpl.
  - rewrite E. split; [reflexivity | symmetry; apply app_nil_r].
  - subst c. rewrite Hcs. split; reflexivity.
Qed.

(** X13: when the database url of the configuration does not parse,
    [main] panics at start-up in [Client::new], after reading the
    configuration and before any request to the sensor or any write. *)
Theorem main_bad_url_panics (args : list string) (read_config : string -> option Settings)
    (envs : list PassEnv) (s : State) (st : Settings) :
  read_config (cfgpath args) = Some st -> url_parses s (url (influxdb st)) = false ->
  let c := influxdb st in
  exists s', main_run args read_config envs s = Some (Panic, s') /\
    client (influx s') = None /\
    events s' = events s ++ [ClientNew (url c) (org c) (token c)].
Proof.
  intros Hr Hu c. rewrite (main_run_setup args read_config envs s st Hr), Hu.
  eexists. split; [reflexivity|]. split; reflexivity.
Qed.

Lemma foldl_dp_tag_fields (ts : list SettingsPair) (p : DataPoint) :
  dp_fields (foldl (λ p tag, dp_tag (key tag) (val tag) p) p ts) = dp_fields p.
Proof. revert p. induction ts as [|tg ts IH]; intros p; simpl; [reflexivity|]. rewrite IH. reflexivity. Qed.

(** X12: the point of [write_point] has 12 distinct fields, the same for
    every configuration and timestamp (the configured tags never add or
    change a field); [aqi], [pm02], [pm10] and [temp] hold the AQI and the
    reading's values. *)
Theorem make_point_fields_fixed (c c' : InfluxSettings) data aqi (t t' : Z) :
  dp_fields (make_point c data aqi t) = dp_fields (make_point c' data aqi t') /\
  size (dp_fields (make_point c data aqi t)) = 12%nat /\
  dp_fields (make_point c data aqi t) !! "aqi" = Some (FI64 aqi) /\
  dp_fields (make_point c data aqi t) !! "pm02" = Some (FI64 (pm02 data)) /\
  dp_fields (make_point c data aqi t) !! "pm10" = Some (FI64 (pm10 data)) /\
  dp_fields (make_point c data aqi t) !! "temp" = Some (FF64 (atmpCompensated data)).
Proof.
  unfold make_point. rewrite !foldl_dp_tag_fields. simpl.
  split; [reflexivity|]. split; [vm_compute; reflexivity|].
  repeat split; vm_compute; reflexivity.
Qed.

(* ------------------------------------------------------------------ *)
(** ** Instances of the properties of the program *)

Lemma compute_aqi_bounded_witness :
  compute_aqi (reading_pm 12 154) = Some 100 /\ 0 <= 100 <= 500.
Proof.
  split; [vm_compute; reflexivity|].
  apply (compute_aqi_bounded (reading_pm 12 154) 100). vm_compute. reflexivity.
Defined.

Lemma compute_aqi_defined_iff_witness :
  (- 2 ^ 31 <= pm02 (reading_pm 326 154) < 2 ^ 31) /\
  (- 2 ^ 31 <= pm10 (reading_pm 326 154) < 2 ^ 31) /\
  (is_Some (compute_aqi (reading_pm 326 154)) <->
   0 <= pm02 (reading_pm 326 154) <= 325 /\ 0 <= pm10 (reading_pm 326 154) <= 603).
Proof.
  split; [simpl; lia|]. split; [simpl; lia|].
  apply compute_aqi_defined_iff; simpl; lia.
Defined.

Lemma compute_one_aqi_breakpoints_witness :
  (2 < 6)%nat /\
  compute_one_aqi (nth 2 PM02 0%float) PM02 = Some (nth 2 [0; 50; 100; 150; 200; 300] 0) /\
  compute_one_aqi (nth 2 PM10 0%float) PM10 = Some (nth 2 [0; 50; 100; 150; 200; 300] 0).
Proof. split; [lia|]. apply (compute_one_aqi_breakpoints 2%nat). lia. Defined.

Lemma main_targets_witness :
  sample_read_config 60 (cfgpath sample_args) = Some (sample_config 60) /\
  match main_run sample_args (sample_read_config 60)
          [sample_env (Some (reading_pm 12 154)) true; sample_env None true;
           sample_env (Some (reading_pm 12 154)) false]
          (sample_state (sample_settings []) true None) with
  | Some (_, s') =>
      exists new, events s' = events (sample_state (sample_settings []) true None) ++ new /\
        Forall (event_targets (influxdb (sample_config 60)) (request_url (sample_config 60))) new
  | None => False
  end.
Proof.
  split; [reflexivity|].
  apply (main_targets sample_args (sample_read_config 60) _ _ (sample_config 60)).
  reflexivity.
Defined.

Lemma main_healthy_run_witness :
  sample_read_config 60 (cfgpath sample_args) = Some (sample_config 60) /\
  url_parses (sample_state (sample_settings []) true None)
    (url (influxdb (sample_config 60))) = true /\
  delaysecs (airgradient (sample_config 60)) <> 0 /\
  Forall (λ e, env_db_up e = true /\ timestamp_ok (env_clock e) = true /\
               exists d aqi, env_sensor e = Some d /\ compute_aqi d = Some aqi)
    [sample_env (Some (reading_pm 12 154)) true; sample_env (Some (reading_pm 12 154)) true] /\
  let c := influxdb (sample_config 60) in
  exists s' ps,
    main_run sample_args (sample_read_config 60)
      [sample_env (Some (reading_pm 12 154)) true; sample_env (Some (reading_pm 12 154)) true]
      (sample_state (sample_settings []) true None) = Some (Ok tt, s') /\
    length ps = length [sample_env (Some (reading_pm 12 154)) true;
                        sample_env (Some (reading_pm 12 154)) true] /\
    events s' =
      events (sample_state (sample_settings []) true None) ++
        ClientNew (url c) (org c) (token c) ::
        concat (map (λ p, [HttpGet (request_url (sample_config 60));
                          DbWrite (config_client c) (bucket c) [p]]) ps).
Proof.
  assert (Hall : Forall (λ e, env_db_up e = true /\ timestamp_ok (env_clock e) = true /\
               exists d aqi, env_sensor e = Some d /\ compute_aqi d = Some aqi)
    [sample_env (Some (reading_pm 12 154)) true; sample_env (Some (reading_pm 12 154)) true]).
  { repeat (apply List.Forall_cons; [split; [reflexivity|]; split; [reflexivity|];
              exists (reading_pm 12 154), 100; split; [reflexivity | vm_compute; reflexivity]|]).
    apply List.Forall_nil. }
  split; [reflexivity|]. split; [reflexivity|]. split; [simpl; lia|]. split; [exact Hall|].
  apply (main_healthy_run sample_args (sample_read_config 60) _ _ (sample_config 60));
    [reflexivity | reflexivity | simpl; lia | exact Hall].
Defined.

Lemma main_zero_delay_panics_witness :
  sample_read_config 0 (cfgpath sample_args) = Some (sample_config 0) /\
  url_parses (sample_state (sample_settings []) true None)
    (url (influxdb (sample_config 0))) = true /\
  delaysecs (airgradient (sample_config 0)) = 0 /\
  let c := influxdb (sample_config 0) in
  exists s', main_run sample_args (sample_read_config 0) [sample_env None true]
               (sample_state (sample_settings []) true None) = Some (Panic, s') /\
    client (influx s') = Some (config_client c) /\
    events s' = events (sample_state (sample_settings []) true None) ++
                  [ClientNew (url c) (org c) (token c)].
Proof.
  split; [reflexivity|]. split; [reflexivity|]. split; [reflexivity|].
  apply (main_zero_delay_panics sample_args (sample_read_config 0) _ _ (sample_config 0));
    reflexivity.
Defined.

Lemma main_loop_outcome_witness :
  url_parses (sample_state (sample_settings []) true None)
    (url (cfg (influx (sample_state (sample_settings []) true None)))) = true /\
  fst (main_loop (request_url (sample_config 60))
         [sample_env (Some (reading_pm 12 154)) false; sample_env None true;
          sample_env (Some (reading_pm 400 154)) true]
         (sample_state (sample_settings []) true None)) =
    if existsb pass_panics [sample_env (Some (reading_pm 12 154)) false; sample_env None true;
                            sample_env (Some (reading_pm 400 154)) true]
    then Panic else Ok tt.
Proof. split; [reflexivity|]. apply main_loop_outcome. reflexivity. Defined.

Lemma main_bad_url_panics_witness :
  bad_url_read_config (cfgpath sample_args) = Some bad_url_config /\
  url_parses (sample_state (sample_settings []) true None) (url (influxdb bad_url_config))
    = false /\
  let c := influxdb bad_url_config in
  exists s', main_run sample_args bad_url_read_config [sample_env (Some (reading_pm 12 154)) true]
               (sample_state (sample_settings []) true None) = Some (Panic, s') /\
    client (influx s') = None /\
    events s' = events (sample_state (sample_settings []) true None) ++
                  [ClientNew (url c) (org c) (token c)].
Proof.
  split; [reflexivity|]. split; [reflexivity|].
  apply (main_bad_url_panics sample_args bad_url_read_config _ _ bad_url_config); reflexivity.
Defined.

Lemma do_stuff_fetch_error_witness :
  sensor (sample_state (sample_settings []) true None) = None /\
  do_stuff (request_url (sample_config 60)) (sample_state (sample_settings []) true None) =
    (Err FetchError, emit (HttpGet (request_url (sample_config 60)))
                       (sample_state (sample_settings []) true None)).
Proof. split; [reflexivity|]. apply do_stuff_fetch_error. reflexivity. Defined.

Lemma write_point_clock_panic_witness :
  connects late_state = true /\ timestamp_ok (clock late_state) = false /\
  let c := cfg (influx late_state) in
  write_point (reading_pm 12 154) 55 late_state = (Panic, snd (connect late_state)) /\
  client (influx (snd (write_point (reading_pm 12 154) 55 late_state))) =
    Some (match client (influx late_state) with
          | Some cl => cl
          | None => config_client c
          end) /\
  events (snd (write_point (reading_pm 12 154) 55 late_state)) =
    events late_state ++ match client (influx late_state) with
                         | Some _ => []
                         | None => [ClientNew (url c) (org c) (token c)]
                         end.
Proof.
  split; [reflexivity|]. split; [reflexivity|].
  apply write_point_clock_panic; reflexivity.
Defined.
